(** * autoconvert2: the chain-search core of gstautoconvert2.c

    A shallow embedding of the catalog indexer ([find_pad_templates],
    [index_factories]), the chain validators ([validate_chain_caps],
    [validate_non_consecutive_elements], [gst_auto_convert2_validate_chain])
    and the chain generator ([init_chain_generator],
    [advance_chain_generator], [generate_next_chain]), followed by the
    properties of the search that the design document states.

    Conventions of the embedding:
    - [guint] and [int] values are integers in [Z]; every conversion between
      the two C types is written out ([guint_of], [int_of]);
    - an array ([GSList **]) is a list read and written by index; a read or
      write outside the array, like the dereference of a NULL pointer, is
      undefined behaviour in C and [None] here;
    - a [GSList *] into the factory index is the offset of the node it points
      to, the offset one past the last node being NULL;
    - the GStreamer caps functions are an interface ([GstCapsApi]). *)

From stdpp Require Import base numbers option list.

(** ** Machine integers *)

(** Conversion of an integer to [guint] (32 bits, unsigned). *)
Definition guint_of (z : Z) : Z := (z `mod` 2 ^ 32)%Z.

(** Conversion of an integer to [int] (32 bits, two's complement). *)
Definition int_of (z : Z) : Z := ((z + 2 ^ 31) `mod` 2 ^ 32 - 2 ^ 31)%Z.

Definition G_MAXINT : Z := (2 ^ 31 - 1)%Z.

(** ** Arrays and list nodes *)

(** [a[i]] as an rvalue. *)
Definition array_get {A} (a : list A) (i : Z) : option A :=
  if (i <? 0)%Z then None else a !! Z.to_nat i.

(** [a[i] = v]. *)
Definition array_set {A} (a : list A) (i : Z) (v : A) : option (list A) :=
  if (i <? 0)%Z then None
  else if Z.to_nat i <? length a then Some (<[Z.to_nat i := v]> a)
  else None.

(** A pointer to a node of the list [l]: the number of nodes before it.
    [length l] (and anything beyond) is the end of the list, NULL; the head
    pointer of [l] is offset 0, which is NULL exactly when [l] is empty. *)
Abbreviation GSListPtr := nat.

(** [if (p)] *)
Definition gslist_non_null {A} (l : list A) (p : GSListPtr) : bool :=
  p <? length l.

(** [p->next] *)
Definition gslist_next {A} (l : list A) (p : GSListPtr) : option GSListPtr :=
  if gslist_non_null l p then Some (S p) else None.

(** [p->data], dereferenced. *)
Definition gslist_data {A} (l : list A) (p : GSListPtr) : option A := l !! p.

(** [p->data] as a pointer value. Every node of the factory index holds the
    entry that [create_factory_index_entry] allocated for it, so two nodes
    hold the same pointer exactly when they are the same node: the pointer is
    identified with the offset of its node. *)
Definition gslist_data_ptr {A} (l : list A) (p : GSListPtr) : option nat :=
  if gslist_non_null l p then Some p else None.

(** ** The GStreamer caps interface used by the element *)

Class GstCapsApi := {
  GstCaps : Type;
  GstStaticCaps : Type;
  gst_static_caps_get : GstStaticCaps → GstCaps;
  gst_caps_new_empty : GstCaps;
  gst_caps_merge : GstCaps → GstCaps → GstCaps;
  gst_caps_can_intersect : GstCaps → GstCaps → bool
}.

(** [GstPadDirection], as gstpad.h declares it. *)
Inductive GstPadDirection := GST_PAD_UNKNOWN | GST_PAD_SRC | GST_PAD_SINK.

#[global] Instance GstPadDirection_eq_dec : EqDecision GstPadDirection.
Proof. solve_decision. Defined.

Section Model.
Context `{GstCapsApi}.

(** ** Data *)

Record GstStaticPadTemplate := {
  direction : GstPadDirection;
  static_caps : GstStaticCaps
}.

(** An element factory: a handle and its static pad templates. *)
Record GstElementFactory := {
  factory_handle : nat;
  static_pad_templates : list GstStaticPadTemplate
}.

Record FactoryListEntry := {
  sink_pad_template : GstStaticPadTemplate;
  src_pad_template : GstStaticPadTemplate;
  entry_sink_caps : GstCaps;
  entry_src_caps : GstCaps;
  factory : GstElementFactory
}.

Record ChainGenerator := {
  gen_sink_caps : GstCaps;
  gen_src_caps : GstCaps;
  gen_length : Z;
  iterators : list GSListPtr;
  gen_init : bool
}.

(** [struct _GstAutoConvert2Priv], without its mutex. A caps pointer of the
    zero-filled structure is NULL. *)
Record GstAutoConvert2Priv := {
  factory_index : list FactoryListEntry;
  priv_sink_caps : option GstCaps;
  priv_src_caps : option GstCaps
}.

Record GstAutoConvert2 := { priv : GstAutoConvert2Priv }.

(** The two ends of a transform route: [route->sink.caps] and
    [route->src.caps]. *)
Record GstAutoConvert2TransformRoute := {
  route_sink_caps : GstCaps;
  route_src_caps : GstCaps
}.

(** The virtual methods of [GstAutoConvert2Class]. [get_factories] is NULL
    unless a subclass provides it. *)
Record GstAutoConvert2Class := {
  get_factories : option (GstAutoConvert2 → list GstElementFactory);
  validate_transform_route :
    GstAutoConvert2 → GstAutoConvert2TransformRoute → bool;
  validate_chain :
    GstAutoConvert2 → GstCaps → GstCaps → list GSListPtr → Z → option Z
}.

(** What [GST_ELEMENT_ERROR] posts. *)
Inductive ElementError := CORE_NOT_IMPLEMENTED.

(** [g_malloc0]: an empty factory index and NULL caps. *)
Definition gst_auto_convert2_init : GstAutoConvert2 :=
  {| priv := {| factory_index := []; priv_sink_caps := None;
                priv_src_caps := None |} |}.

(** ** Catalog index *)

(** The loop of [find_pad_templates] over the templates still to visit, with
    the two out-parameters. *)
Fixpoint find_pad_templates_loop (it : list GstStaticPadTemplate)
    (sink_pad_template src_pad_template : option GstStaticPadTemplate)
    : bool * option GstStaticPadTemplate * option GstStaticPadTemplate :=
  match it with
  | [] =>
      (bool_decide (is_Some sink_pad_template)
         && bool_decide (is_Some src_pad_template),
       sink_pad_template, src_pad_template)
  | pad_template :: next =>
      if decide (direction pad_template = GST_PAD_SINK) then
        match sink_pad_template with
        | Some _ => (false, sink_pad_template, src_pad_template)
        | None => find_pad_templates_loop next (Some pad_template)
                    src_pad_template
        end
      else
        match src_pad_template with
        | Some _ => (false, sink_pad_template, src_pad_template)
        | None => find_pad_templates_loop next sink_pad_template
                    (Some pad_template)
        end
  end.

Definition find_pad_templates (factory : GstElementFactory)
    : bool * option GstStaticPadTemplate * option GstStaticPadTemplate :=
  find_pad_templates_loop (static_pad_templates factory) None None.

Definition create_factory_index_entry (factory : GstElementFactory)
    (sink_pad_template src_pad_template : GstStaticPadTemplate)
    : FactoryListEntry :=
  {| sink_pad_template := sink_pad_template;
     src_pad_template := src_pad_template;
     entry_sink_caps := gst_static_caps_get (static_caps sink_pad_template);
     entry_src_caps := gst_static_caps_get (static_caps src_pad_template);
     factory := factory |}.

(** First loop of [index_factories]: each qualifying factory is prepended
    ([g_slist_prepend]) to the index. *)
Fixpoint index_factories_prepend (it : list GstElementFactory)
    (factory_index : list FactoryListEntry) : list FactoryListEntry :=
  match it with
  | [] => factory_index
  | factory :: next =>
      match find_pad_templates factory with
      | (true, Some sink_pad_template, Some src_pad_template) =>
          index_factories_prepend next
            (create_factory_index_entry factory sink_pad_template
               src_pad_template :: factory_index)
      | _ => index_factories_prepend next factory_index
      end
  end.

(** Second loop of [index_factories]: the union of the caps of the index. *)
Fixpoint index_factories_merge (i : list FactoryListEntry)
    (sink_caps src_caps : GstCaps) : GstCaps * GstCaps :=
  match i with
  | [] => (sink_caps, src_caps)
  | entry :: next =>
      index_factories_merge next
        (gst_caps_merge sink_caps (entry_sink_caps entry))
        (gst_caps_merge src_caps (entry_src_caps entry))
  end.

Definition index_factories (klass : GstAutoConvert2Class)
    (autoconvert2 : GstAutoConvert2) : list ElementError * GstAutoConvert2 :=
  match get_factories klass with
  | None => ([CORE_NOT_IMPLEMENTED], autoconvert2)
  | Some get =>
      let index :=
        index_factories_prepend (get autoconvert2)
          (factory_index (priv autoconvert2)) in
      let '(sink_caps, src_caps) :=
        index_factories_merge index gst_caps_new_empty gst_caps_new_empty in
      ([], {| priv := {| factory_index := index;
                         priv_sink_caps := Some sink_caps;
                         priv_src_caps := Some src_caps |} |})
  end.

(** ** Chain generator: construction *)

Definition init_chain_generator (factory_index : list FactoryListEntry)
    (transform_route : GstAutoConvert2TransformRoute) (length : Z)
    : ChainGenerator :=
  {| gen_sink_caps := route_sink_caps transform_route;
     gen_src_caps := route_src_caps transform_route;
     gen_length := length;
     iterators := replicate (Z.to_nat length) (0 : GSListPtr);
     gen_init := true |}.

(** ** Validators *)

(** The entry behind [chain[i]->data]. *)
Definition chain_entry (factory_index : list FactoryListEntry)
    (chain : list GSListPtr) (i : Z) : option FactoryListEntry :=
  p ← array_get chain i; gslist_data factory_index p.

(** The [do ... while (--depth >= 0)] loop of [validate_chain_caps]. [fuel]
    bounds the iterations: [depth] only goes down, so one more than its first
    value is enough, and [None] for want of fuel does not arise. *)
Fixpoint validate_chain_caps_loop (factory_index : list FactoryListEntry)
    (chain_sink_caps chain_src_caps : GstCaps) (chain : list GSListPtr)
    (chain_length : Z) (fuel : nat) (depth : Z) : option Z :=
  match fuel with
  | O => None
  | S fuel =>
      src_caps ←
        (if (depth =? 0)%Z then Some chain_sink_caps
         else entry_src_caps <$> chain_entry factory_index chain (depth - 1));
      sink_caps ←
        (if (guint_of depth =? chain_length)%Z then Some chain_src_caps
         else entry_sink_caps <$> chain_entry factory_index chain depth);
      if negb (gst_caps_can_intersect src_caps sink_caps) then Some depth
      else
        let depth := int_of (depth - 1) in
        if (0 <=? depth)%Z then
          validate_chain_caps_loop factory_index chain_sink_caps
            chain_src_caps chain chain_length fuel depth
        else Some depth
  end.

Definition validate_chain_caps (autoconvert2 : GstAutoConvert2)
    (chain_sink_caps chain_src_caps : GstCaps) (chain : list GSListPtr)
    (chain_length : Z) : option Z :=
  let depth := int_of chain_length in
  validate_chain_caps_loop (factory_index (priv autoconvert2))
    chain_sink_caps chain_src_caps chain chain_length
    (S (Z.to_nat depth)) depth.

(** The [for (...; depth >= 0; depth--)] loop of
    [validate_non_consecutive_elements], with [fuel] as above. The two
    [data] pointers are read through their nodes and compared. *)
Fixpoint validate_non_consecutive_elements_loop
    (factory_index : list FactoryListEntry) (chain : list GSListPtr)
    (fuel : nat) (depth : Z) : option Z :=
  if (0 <=? depth)%Z then
    match fuel with
    | O => None
    | S fuel =>
        this ← array_get chain depth;
        this_data ← gslist_data_ptr factory_index this;
        following ← array_get chain (depth + 1);
        following_data ← gslist_data_ptr factory_index following;
        if this_data =? following_data then Some depth
        else validate_non_consecutive_elements_loop factory_index chain fuel
               (int_of (depth - 1))
    end
  else Some depth.

Definition validate_non_consecutive_elements (autoconvert2 : GstAutoConvert2)
    (sink_caps src_caps : GstCaps) (chain : list GSListPtr)
    (chain_length : Z) : option Z :=
  let depth := int_of (guint_of (chain_length - 2)) in
  validate_non_consecutive_elements_loop (factory_index (priv autoconvert2))
    chain (S (Z.to_nat depth)) depth.

(** The type of a validator: the element, the caps of the route, the
    chain and its length; the result is [-1] or a depth. *)
Definition Validator : Type :=
  GstAutoConvert2 → GstCaps → GstCaps → list GSListPtr → Z → option Z.

Definition validators : list Validator :=
  [validate_chain_caps; validate_non_consecutive_elements].

(** The loop of [gst_auto_convert2_validate_chain] over the validators
    still to run. *)
Fixpoint validate_chain_loop (vs : list Validator)
    (autoconvert2 : GstAutoConvert2) (sink_caps src_caps : GstCaps)
    (chain : list GSListPtr) (chain_length : Z) : option Z :=
  match vs with
  | [] => Some (-1)%Z
  | v :: vs =>
      depth ← v autoconvert2 sink_caps src_caps chain chain_length;
      if negb (depth =? -1)%Z then Some depth
      else validate_chain_loop vs autoconvert2 sink_caps src_caps chain
             chain_length
  end.

Definition gst_auto_convert2_validate_chain : Validator :=
  validate_chain_loop validators.

Definition gst_auto_convert2_validate_transform_route
    (autoconvert2 : GstAutoConvert2) (route : GstAutoConvert2TransformRoute)
    : bool := true.

(** The class structure as [gst_auto_convert2_class_init] leaves it: the
    two default methods installed, [get_factories] still NULL. *)
Definition gst_auto_convert2_class_init : GstAutoConvert2Class :=
  {| get_factories := None;
     validate_transform_route := gst_auto_convert2_validate_transform_route;
     validate_chain := gst_auto_convert2_validate_chain |}.

(** ** Chain generator: advancing *)

(** First loop of [advance_chain_generator]; [i < len] compares an [int]
    with a [guint]. The result is the value of [i] when the loop is left and
    the cursors as the loop leaves them. [fuel] bounds the iterations; the
    caller passes [len], which the loop cannot exceed. *)
Fixpoint advance_chain_generator_step
    (factory_index : list FactoryListEntry) (len : Z) (fuel : nat) (i : Z)
    (iterators : list GSListPtr) : option (Z * list GSListPtr) :=
  if (guint_of i <? len)%Z then
    match fuel with
    | O => None
    | S fuel =>
        it ← array_get iterators i;
        it ← gslist_next factory_index it;
        if gslist_non_null factory_index it then
          iterators ← array_set iterators i it; Some (i, iterators)
        else
          iterators ← array_set iterators i (0 : GSListPtr);
          advance_chain_generator_step factory_index len fuel
            (int_of (i + 1)) iterators
    end
  else Some (i, iterators).

(** Second loop of [advance_chain_generator]:
    [for (i = 0; i != starting_depth; i++)]. *)
Fixpoint advance_chain_generator_reset (starting_depth : Z) (fuel : nat)
    (i : Z) (iterators : list GSListPtr) : option (list GSListPtr) :=
  if (guint_of i =? starting_depth)%Z then Some iterators
  else
    match fuel with
    | O => None
    | S fuel =>
        iterators ← array_set iterators i (0 : GSListPtr);
        advance_chain_generator_reset starting_depth fuel (int_of (i + 1))
          iterators
    end.

Definition set_iterators (generator : ChainGenerator)
    (iterators : list GSListPtr) : ChainGenerator :=
  {| gen_sink_caps := gen_sink_caps generator;
     gen_src_caps := gen_src_caps generator;
     gen_length := gen_length generator;
     iterators := iterators;
     gen_init := gen_init generator |}.

Definition set_init (generator : ChainGenerator) (init : bool)
    : ChainGenerator :=
  {| gen_sink_caps := gen_sink_caps generator;
     gen_src_caps := gen_src_caps generator;
     gen_length := gen_length generator;
     iterators := iterators generator;
     gen_init := init |}.

Definition advance_chain_generator (generator : ChainGenerator)
    (factory_index : list FactoryListEntry) (starting_depth : Z)
    : option (bool * ChainGenerator) :=
  let len := gen_length generator in
  '(i, its) ← advance_chain_generator_step factory_index len
                (Z.to_nat len) (int_of starting_depth) (iterators generator);
  if (guint_of i =? len)%Z then Some (false, set_iterators generator its)
  else
    its ← advance_chain_generator_reset starting_depth
             (Z.to_nat starting_depth) 0 its;
    Some (true, set_iterators generator its).

(** The [for (;;)] loop of [generate_next_chain]; [None] when [fuel]
    iterations did not reach a [return]. *)
Fixpoint generate_next_chain_loop (klass : GstAutoConvert2Class)
    (autoconvert2 : GstAutoConvert2) (fuel : nat) (depth : Z)
    (gen : ChainGenerator) : option (bool * ChainGenerator) :=
  match fuel with
  | O => None
  | S fuel =>
      '(advanced, gen) ←
        (if gen_init gen then Some (true, set_init gen false)
         else advance_chain_generator gen
                (factory_index (priv autoconvert2)) (guint_of depth));
      if negb advanced then Some (false, gen)
      else
        depth ← validate_chain klass autoconvert2 (gen_sink_caps gen)
                  (gen_src_caps gen) (iterators gen) (gen_length gen);
        if (depth <? 0)%Z then Some (true, gen)
        else
          let depth := if (0 <? depth)%Z then int_of (depth - 1) else depth in
          generate_next_chain_loop klass autoconvert2 fuel depth gen
  end.

Definition generate_next_chain (klass : GstAutoConvert2Class)
    (autoconvert2 : GstAutoConvert2) (fuel : nat) (gen : ChainGenerator)
    : option (bool * ChainGenerator) :=
  match factory_index (priv autoconvert2) with
  | [] => Some (false, gen)
  | _ :: _ => generate_next_chain_loop klass autoconvert2 fuel 0 gen
  end.

End Model.

(** ** Construction and caps queries *)

(** [GstCapsIntersectMode], as gstcaps.h declares it. *)
Inductive GstCapsIntersectMode :=
  GST_CAPS_INTERSECT_ZIG_ZAG | GST_CAPS_INTERSECT_FIRST.

(** The type of a query: a caps query, or one of the other types. *)
Inductive GstQueryType := GST_QUERY_CAPS | GST_QUERY_OTHER (type : nat).

(** What the query functions of the element use of caps and pads besides
    [GstCapsApi]. [gst_pad_peer_query_caps] is the answer of the peer of a
    pad as the pipeline stands. *)
Class GstPadApi `{GstCapsApi} := {
  GstPad : Type;
  gst_caps_intersect_full :
    GstCaps → GstCaps → GstCapsIntersectMode → GstCaps;
  gst_caps_normalize : GstCaps → GstCaps;
  gst_pad_peer_query_caps : GstPad → option GstCaps → GstCaps
}.

Section QueryModel.
Context `{GstPadApi}.

(** A query: its type and, for a caps query, the filter (NULL or caps) and
    the result once it is set. *)
Record GstQuery := {
  query_type : GstQueryType;
  caps_filter : option GstCaps;
  caps_result : option GstCaps
}.

(** [gst_query_set_caps_result] *)
Definition gst_query_set_caps_result (query : GstQuery) (caps : GstCaps)
    : GstQuery :=
  {| query_type := query_type query;
     caps_filter := caps_filter query;
     caps_result := Some caps |}.

(** The pads of the element: [GST_ELEMENT (autoconvert2)->sinkpads] and
    [->srcpads]. *)
Record GstElementPads := {
  sinkpads : list GstPad;
  srcpads : list GstPad
}.

(** [gst_auto_convert2_constructed], without the call of the parent
    class. *)
Definition gst_auto_convert2_constructed (klass : GstAutoConvert2Class)
    (autoconvert2 : GstAutoConvert2) : list ElementError * GstAutoConvert2 :=
  index_factories klass autoconvert2.

(** The loop of [query_caps] over the pads still to ask. *)
Fixpoint query_caps_peers (it : list GstPad) (filter : option GstCaps)
    (caps : GstCaps) : GstCaps :=
  match it with
  | [] => caps
  | pad :: it =>
      query_caps_peers it filter
        (gst_caps_merge caps (gst_pad_peer_query_caps pad filter))
  end.

(** [query_caps]. [factory_caps] is a pointer that [gst_caps_ref] requires
    not to be NULL. *)
Definition query_caps (autoconvert2 : GstAutoConvert2) (query : GstQuery)
    (factory_caps : option GstCaps) (pads : list GstPad)
    : option (bool * GstQuery) :=
  let caps := gst_caps_new_empty in
  let filter := caps_filter query in
  let caps := query_caps_peers pads filter caps in
  factory_caps ← factory_caps;
  let caps :=
    match filter with
    | Some filter =>
        let filtered_factory_caps :=
          gst_caps_intersect_full filter factory_caps
            GST_CAPS_INTERSECT_FIRST in
        gst_caps_merge caps filtered_factory_caps
    | None => gst_caps_merge caps factory_caps
    end in
  let caps := gst_caps_normalize caps in
  Some (true, gst_query_set_caps_result query caps).

(** [gst_auto_convert2_sink_query]; [gst_pad_query_default] is the
    handler of GStreamer for the other queries. *)
Definition gst_auto_convert2_sink_query
    (gst_pad_query_default : GstPad → GstQuery → bool * GstQuery)
    (pads : GstElementPads) (pad : GstPad) (parent : GstAutoConvert2)
    (query : GstQuery) : option (bool * GstQuery) :=
  match query_type query with
  | GST_QUERY_CAPS =>
      query_caps parent query (priv_sink_caps (priv parent)) (srcpads pads)
  | _ => Some (gst_pad_query_default pad query)
  end.

(** [gst_auto_convert2_src_query] *)
Definition gst_auto_convert2_src_query
    (gst_pad_query_default : GstPad → GstQuery → bool * GstQuery)
    (pads : GstElementPads) (pad : GstPad) (parent : GstAutoConvert2)
    (query : GstQuery) : option (bool * GstQuery) :=
  match query_type query with
  | GST_QUERY_CAPS =>
      query_caps parent query (priv_src_caps (priv parent)) (sinkpads pads)
  | _ => Some (gst_pad_query_default pad query)
  end.

End QueryModel.

(** ** A concrete caps model for the examples

    Caps are finite lists of format identifiers; two caps intersect when they
    share a format. *)

Definition format_caps_can_intersect (a b : list nat) : bool :=
  existsb (λ x, existsb (Nat.eqb x) b) a.

Definition FormatCaps : GstCapsApi :=
  {| GstCaps := list nat;
     GstStaticCaps := list nat;
     gst_static_caps_get := λ c, c;
     gst_caps_new_empty := [];
     gst_caps_merge := λ a b, a ++ b;
     gst_caps_can_intersect := format_caps_can_intersect |}.

Definition RGB : nat := 0.
Definition YUV : nat := 1.
Definition I420 : nat := 2.

(** Pads for the examples: a pad is a number, and its peer accepts the one
    format of that number (under a filter, if the filter has it). The
    intersection keeps the formats of the first caps that the second has. *)
Definition format_caps_intersect (a b : list nat) : list nat :=
  List.filter (λ x, existsb (Nat.eqb x) b) a.

Definition format_peer_query_caps (pad : nat) (filter : option (list nat))
    : list nat :=
  match filter with
  | Some f => List.filter (Nat.eqb pad) f
  | None => [pad]
  end.

Definition FormatPads : @GstPadApi FormatCaps :=
  @Build_GstPadApi FormatCaps nat (λ a b _, format_caps_intersect a b)
    (λ a : list nat, a) format_peer_query_caps.

Section Examples.
#[local] Existing Instance FormatCaps.

Definition example_template (d : GstPadDirection) (caps : list nat)
    : GstStaticPadTemplate :=
  {| direction := d; static_caps := caps |}.

(** A converter with one sink and one source pad template. *)
Definition example_factory (handle : nat) (input output : list nat)
    : GstElementFactory :=
  {| factory_handle := handle;
     static_pad_templates :=
       [example_template GST_PAD_SINK input;
        example_template GST_PAD_SRC output] |}.

(** A subclass whose class initialisation sets [get_factories] and keeps
    the inherited methods. *)
Definition example_class (factories : list GstElementFactory)
    : GstAutoConvert2Class :=
  {| get_factories := Some (λ _, factories);
     validate_transform_route :=
       validate_transform_route gst_auto_convert2_class_init;
     validate_chain := validate_chain gst_auto_convert2_class_init |}.

(** The element as [gst_auto_convert2_constructed] leaves it. *)
Definition example_element (factories : list GstElementFactory)
    : GstAutoConvert2 :=
  (index_factories (example_class factories) gst_auto_convert2_init).2.

Definition example_route (source destination : list nat)
    : GstAutoConvert2TransformRoute :=
  {| route_sink_caps := source; route_src_caps := destination |}.

(** Two converters: RGB to YUV, listed first, and YUV to I420. *)
Definition rgb_yuv_i420 : list GstElementFactory :=
  [example_factory 1 [RGB] [YUV]; example_factory 2 [YUV] [I420]].

(** One search for a chain of [length] stages: a fresh generator, the first
    call of [generate_next_chain], and the handles of the factories of the
    chain it gives out, first stage first. *)
Definition example_search (factories : list GstElementFactory)
    (source destination : list nat) (length : Z) (fuel : nat)
    : option (bool * list (option nat)) :=
  let element := example_element factories in
  let index := factory_index (priv element) in
  '(found, gen) ← generate_next_chain (example_class factories) element fuel
                    (init_chain_generator index
                       (example_route source destination) length);
  Some (found,
        (λ p, (factory_handle ∘ factory) <$> gslist_data index p)
          <$> iterators gen).

End Examples.

Section QueryExamples.
#[local] Existing Instance FormatCaps.
#[local] Existing Instance FormatPads.

(** A caps query with the given filter. *)
Definition example_caps_query (filter : option (list nat)) : GstQuery :=
  Build_GstQuery GST_QUERY_CAPS filter None.

(** The pads of an element, by the formats their peers accept. *)
Definition example_pads (sink_peers src_peers : list nat) : GstElementPads :=
  Build_GstElementPads sink_peers src_peers.

End QueryExamples.


(** * Specification-side definitions *)

(** The largest [i < n] with [bad i], or [-1] when there is none: what a
    scan from the end towards position 0 reports. *)
Fixpoint scan_down (bad : nat → bool) (n : nat) : Z :=
  match n with
  | O => (-1)%Z
  | S m => if bad m then Z.of_nat m else scan_down bad m
  end.

(** A candidate chain of length [N] over a catalog of [K] entries: [N]
    cursors, none of them NULL. *)
Definition chain_wf (K N : nat) (chain : list GSListPtr) : Prop :=
  length chain = N ∧ Forall (λ p, p < K) chain.

Section Boundaries.
Context `{GstCapsApi}.
Variable factory_index : list FactoryListEntry.
Variables source_caps destination_caps : GstCaps.
Variable chain : list GSListPtr.

(** The caps on the upstream side of boundary [b]: [source_caps] before
    position 0, the output caps of position [b - 1] otherwise. *)
Definition upstream_caps (b : nat) : option GstCaps :=
  match b with
  | O => Some source_caps
  | S i => entry_src_caps <$> (chain !! i ≫= (factory_index !!.))
  end.

(** The caps on the downstream side of boundary [b]: [destination_caps]
    after the last position, the input caps of position [b] otherwise. *)
Definition downstream_caps (b : nat) : option GstCaps :=
  if decide (b = length chain) then Some destination_caps
  else entry_sink_caps <$> (chain !! b ≫= (factory_index !!.)).

Definition boundary_intersects (b : nat) : bool :=
  match upstream_caps b, downstream_caps b with
  | Some up, Some down => gst_caps_can_intersect up down
  | _, _ => false
  end.

(** The same catalog entry at positions [d] and [d + 1]. *)
Definition adjacent_duplicate (d : nat) : bool :=
  match chain !! d, chain !! S d with
  | Some p, Some q => p =? q
  | _, _ => false
  end.

(** Position [p] shows a reason to reject the chain: boundary [p] does not
    connect, or positions [p] and [p + 1] repeat an entry. *)
Definition chain_defect (p : nat) : bool :=
  negb (boundary_intersects p) || adjacent_duplicate p.

End Boundaries.

(** ** The catalog *)

(** The number of static pad templates of [factory] with direction [d]. *)
Definition count_templates `{GstCapsApi} (d : GstPadDirection)
    (factory : GstElementFactory) : nat :=
  length (filter (λ t, direction t = d) (static_pad_templates factory)).

(** What [index_factories] tests before it adds an entry for [factory]. *)
Definition factory_qualifies `{GstCapsApi} (factory : GstElementFactory)
    : bool :=
  (find_pad_templates factory).1.1.

(** An entry as [index_factories] makes them. *)
Definition entry_of_listed `{GstCapsApi} (listed : list GstElementFactory)
    (entry : FactoryListEntry) : Prop :=
  factory entry ∈ listed ∧
  sink_pad_template entry ∈ static_pad_templates (factory entry) ∧
  direction (sink_pad_template entry) = GST_PAD_SINK ∧
  src_pad_template entry ∈ static_pad_templates (factory entry) ∧
  direction (src_pad_template entry) ≠ GST_PAD_SINK ∧
  entry_sink_caps entry
  = gst_static_caps_get (static_caps (sink_pad_template entry)) ∧
  entry_src_caps entry
  = gst_static_caps_get (static_caps (src_pad_template entry)).

(** ** The generator as an odometer *)

(** Incrementing the first digit of a base-[K] odometer, with carry towards
    the end of the list; [None] when the carry leaves the last digit. *)
Fixpoint odometer (K : nat) (digits : list nat) : option (list nat) :=
  match digits with
  | [] => None
  | c :: digits =>
      if S c <? K then Some (S c :: digits)
      else (0 ::.) <$> odometer K digits
  end.

(** What [advance(skip_from_depth = D)] is to do with the cursors, in the
    words of the design: the odometer step on the positions from [D] on;
    when it succeeds, first entry at every position below [D]. *)
Definition advance_spec (K D : nat) (cursors : list nat)
    : option (list nat) :=
  (replicate D 0 ++.) <$> odometer K (drop D cursors).

(** The value of a cursor tuple in the mixed radix where position 0 is the
    least significant digit and the last position the most significant. *)
Fixpoint rank (K : nat) (cursors : list nat) : nat :=
  match cursors with
  | [] => 0
  | c :: cursors => c + K * rank K cursors
  end.

(** All [K ^ N] candidate chains of length [N], position 0 changing
    fastest. *)
Fixpoint all_chains (K N : nat) : list (list nat) :=
  match N with
  | O => [[]]
  | S N => hi ← all_chains K N; (λ c, c :: hi) <$> seq 0 K
  end.

Section Search.
Context `{GstCapsApi}.
Variable klass : GstAutoConvert2Class.
Variable autoconvert2 : GstAutoConvert2.

(** The test [generate_next_chain] applies to the result of the validator
    pipeline. *)
Definition chain_accepted (route : GstAutoConvert2TransformRoute) (N : nat)
    (chain : list nat) : bool :=
  match validate_chain klass autoconvert2 (route_sink_caps route)
          (route_src_caps route) chain (Z.of_nat N) with
  | Some depth => (depth <? 0)%Z
  | None => false
  end.

(** The naive search: every candidate in turn, the first accepted one
    wins. *)
Definition naive_search (route : GstAutoConvert2TransformRoute) (N : nat)
    : option (list nat) :=
  find (chain_accepted route N)
    (all_chains (length (factory_index (priv autoconvert2))) N).

(** The chains a generator stands at when [advance_chain_generator] is
    called with the same [starting_depth] over and over, up to and including
    the one at which it reports that it is done. *)
Fixpoint visited_chains (starting_depth : Z) (fuel : nat)
    (gen : ChainGenerator) : option (list (list nat)) :=
  match fuel with
  | O => None
  | S fuel =>
      '(advanced, gen') ← advance_chain_generator gen
                            (factory_index (priv autoconvert2))
                            starting_depth;
      if advanced : bool then
        (iterators gen ::.) <$> visited_chains starting_depth fuel gen'
      else Some [iterators gen]
  end.

End Search.

Section Restart.
Context `{GstCapsApi}.
Variable klass : GstAutoConvert2Class.
Variable autoconvert2 : GstAutoConvert2.

(** The chains one generator gives out when [generate_next_chain] is
    called until it returns FALSE; [calls] bounds the number of calls and
    [fuel] the iterations of each. *)
Fixpoint generated_chains (fuel calls : nat) (gen : ChainGenerator)
    : option (list (list nat)) :=
  match calls with
  | O => None
  | S calls =>
      '(found, gen') ← generate_next_chain klass autoconvert2 fuel gen;
      if found : bool then
        (iterators gen' ::.) <$> generated_chains fuel calls gen'
      else Some []
  end.

End Restart.

(** The caps of a union intersect what the caps of one of its parts
    intersect; the empty caps intersect nothing. *)
Definition caps_merge_is_union `{GstCapsApi} : Prop :=
  (∀ c, gst_caps_can_intersect c gst_caps_new_empty = false) ∧
  (∀ c a b, gst_caps_can_intersect c (gst_caps_merge a b)
            = gst_caps_can_intersect c a || gst_caps_can_intersect c b).

(** Normalising caps does not change what they intersect. *)
Definition caps_normalize_keeps `{GstPadApi} : Prop :=
  ∀ c a, gst_caps_can_intersect c (gst_caps_normalize a)
         = gst_caps_can_intersect c a.

(** A generator for chains of length [N] on [route], its cursors in the
    catalog of [K] entries. *)
Definition generator_wf `{GstCapsApi} (K N : nat)
    (route : GstAutoConvert2TransformRoute) (gen : ChainGenerator) : Prop :=
  gen_sink_caps gen = route_sink_caps route ∧
  gen_src_caps gen = route_src_caps route ∧
  gen_length gen = Z.of_nat N ∧
  chain_wf K N (iterators gen).

(** The depth [generate_next_chain] hands to [advance_chain_generator]
    after a validator reported [depth]. *)
Definition skip_depth (depth : nat) : nat := depth - 1.

(** * Machine integers in range *)

Lemma guint_of_id z : (0 ≤ z < 2 ^ 32)%Z → guint_of z = z.
Proof. intros Hz. unfold guint_of. by apply Z.mod_small. Qed.

Lemma int_of_id z : (- 2 ^ 31 ≤ z < 2 ^ 31)%Z → int_of z = z.
Proof.
  intros Hz. unfold int_of. rewrite Z.mod_small; [lia|].
  change (2 ^ 32)%Z with (2 ^ 31 + 2 ^ 31)%Z. lia.
Qed.

Lemma guint_of_nat (n : nat) :
  (Z.of_nat n ≤ G_MAXINT)%Z → guint_of (Z.of_nat n) = Z.of_nat n.
Proof.
  unfold G_MAXINT. intros Hn. apply guint_of_id.
  change (2 ^ 32)%Z with (2 ^ 31 + 2 ^ 31)%Z. lia.
Qed.

Lemma int_of_nat (n : nat) :
  (Z.of_nat n ≤ G_MAXINT)%Z → int_of (Z.of_nat n) = Z.of_nat n.
Proof. unfold G_MAXINT. intros Hn. apply int_of_id. lia. Qed.

Lemma int_of_pred (n : nat) :
  (Z.of_nat n ≤ G_MAXINT)%Z → int_of (Z.of_nat n - 1) = (Z.of_nat n - 1)%Z.
Proof. unfold G_MAXINT. intros Hn. apply int_of_id. lia. Qed.

Lemma array_get_nat {A} (a : list A) (i : nat) :
  array_get a (Z.of_nat i) = a !! i.
Proof.
  unfold array_get. destruct (Z.ltb_spec (Z.of_nat i) 0); [lia|].
  by rewrite Nat2Z.id.
Qed.

Lemma array_set_nat {A} (a : list A) (i : nat) (v : A) :
  i < length a → array_set a (Z.of_nat i) v = Some (<[i := v]> a).
Proof.
  intros Hi. unfold array_set.
  destruct (Z.ltb_spec (Z.of_nat i) 0); [lia|]. rewrite Nat2Z.id.
  by destruct (Nat.ltb_spec i (length a)); [|lia].
Qed.

Lemma list_insert_middle {A} (pre suf : list A) (n : nat) (x v : A) :
  length pre = n → <[n := v]> (pre ++ x :: suf) = pre ++ v :: suf.
Proof.
  intros <-. rewrite <-(Nat.add_0_r (length pre)). by rewrite insert_app_r.
Qed.

(** * Scanning from the end *)

Lemma scan_down_range bad n :
  scan_down bad n = (-1)%Z ∨ (0 ≤ scan_down bad n < Z.of_nat n)%Z.
Proof.
  induction n as [|n IH]; simpl; [by left|].
  destruct (bad n); [right; lia|]. destruct IH; [by left|right; lia].
Qed.

Lemma scan_down_none bad n :
  scan_down bad n = (-1)%Z ↔ ∀ i, i < n → bad i = false.
Proof.
  induction n as [|n IH]; simpl.
  - split; [intros _ i Hi; lia|done].
  - destruct (bad n) eqn:Hn.
    + split; [lia|]. intros Hall. rewrite Hall in Hn; [done|lia].
    + rewrite IH. split; intros Hall i Hi.
      * destruct (decide (i = n)) as [->|]; [done|]. apply Hall. lia.
      * apply Hall. lia.
Qed.

Lemma scan_down_some bad n (d : nat) :
  scan_down bad n = Z.of_nat d ↔
  d < n ∧ bad d = true ∧ ∀ i, d < i < n → bad i = false.
Proof.
  induction n as [|n IH]; simpl.
  - split; [lia|]. intros [? _]. lia.
  - destruct (bad n) eqn:Hn.
    + split.
      * intros Hd. assert (d = n) as -> by lia.
        split; [lia|]. split; [done|]. intros i Hi. lia.
      * intros (Hd & Hbad & Hall).
        destruct (decide (d = n)) as [->|]; [done|].
        rewrite Hall in Hn; [done|lia].
    + rewrite IH. split.
      * intros (Hd & Hbad & Hall). split; [lia|]. split; [done|].
        intros i Hi. destruct (decide (i = n)) as [->|]; [done|].
        apply Hall. lia.
      * intros (Hd & Hbad & Hall).
        assert (d ≠ n) by (intros ->; congruence).
        split; [lia|]. split; [done|]. intros i Hi. apply Hall. lia.
Qed.


(** * The validators *)

Section ValidatorFacts.
Context `{GstCapsApi}.
Implicit Types (chain : list GSListPtr).

Lemma chain_wf_lookup K N chain (i : nat) :
  chain_wf K N chain → i < N → ∃ p, chain !! i = Some p ∧ p < K.
Proof.
  intros [Hlen Hall] Hi.
  destruct (lookup_lt_is_Some_2 chain i) as [p Hp]; [lia|].
  exists p. split; [done|]. exact (Forall_lookup_1 _ _ _ _ Hall Hp).
Qed.

Lemma chain_entry_nat (fi : list FactoryListEntry) chain N (i : nat) :
  chain_wf (length fi) N chain → i < N →
  ∃ p e, chain !! i = Some p ∧ fi !! p = Some e ∧
         chain_entry fi chain (Z.of_nat i) = Some e.
Proof.
  intros Hwf Hi. destruct (chain_wf_lookup _ _ _ _ Hwf Hi) as (p & Hp & HpK).
  destruct (lookup_lt_is_Some_2 fi p HpK) as [e He].
  exists p, e. split; [done|]. split; [done|].
  unfold chain_entry. rewrite array_get_nat, Hp. simpl. done.
Qed.

Lemma chain_entry_lookup (fi : list FactoryListEntry) chain (i : nat) :
  chain_entry fi chain (Z.of_nat i) = chain !! i ≫= (fi !!.).
Proof. unfold chain_entry. by rewrite array_get_nat. Qed.

(** The two caps that an iteration of the loop of [validate_chain_caps]
    selects are those of the boundary it stands at. *)
Lemma validate_chain_caps_upstream (fi : list FactoryListEntry) sink_caps
    chain (b : nat) :
  (if (Z.of_nat b =? 0)%Z then Some sink_caps
   else entry_src_caps <$> chain_entry fi chain (Z.of_nat b - 1))
  = upstream_caps fi sink_caps chain b.
Proof.
  destruct b as [|b]; [done|].
  destruct (Z.eqb_spec (Z.of_nat (S b)) 0) as [?|_]; [lia|].
  replace (Z.of_nat (S b) - 1)%Z with (Z.of_nat b) by lia.
  by rewrite chain_entry_lookup.
Qed.

Lemma validate_chain_caps_downstream (fi : list FactoryListEntry) src_caps
    chain (N b : nat) :
  length chain = N → (Z.of_nat b ≤ G_MAXINT)%Z →
  (if (guint_of (Z.of_nat b) =? Z.of_nat N)%Z
   then Some src_caps
   else entry_sink_caps <$> chain_entry fi chain (Z.of_nat b))
  = downstream_caps fi src_caps chain b.
Proof.
  intros <- Hb. rewrite guint_of_nat by done. unfold downstream_caps.
  rewrite chain_entry_lookup.
  destruct (Z.eqb_spec (Z.of_nat b) (Z.of_nat (length chain)));
    destruct (decide (b = length chain)); done || lia.
Qed.

Lemma boundary_caps_defined (fi : list FactoryListEntry) sink_caps src_caps
    chain (N b : nat) :
  chain_wf (length fi) N chain → b ≤ N →
  ∃ up down, upstream_caps fi sink_caps chain b = Some up ∧
             downstream_caps fi src_caps chain b = Some down.
Proof.
  intros Hwf Hb.
  assert (∀ i, i < N → ∃ e, chain !! i ≫= (fi !!.) = Some e) as Hentry.
  { intros i Hi. destruct (chain_entry_nat fi chain N i) as (p & e & _ & _ & He);
      [done..|]. exists e. by rewrite <-chain_entry_lookup. }
  assert (∃ up, upstream_caps fi sink_caps chain b = Some up) as [up Hup].
  { destruct b as [|b]; [by eexists|]. simpl.
    destruct (Hentry b) as [e ->]; [lia|]. by eexists. }
  assert (∃ down, downstream_caps fi src_caps chain b = Some down)
    as [down Hdown].
  { unfold downstream_caps. case_decide; [by eexists|].
    destruct Hwf as [Hlen _].
    destruct (Hentry b) as [e ->]; [lia|]. by eexists. }
  by exists up, down.
Qed.

Lemma validate_chain_caps_loop_scan (fi : list FactoryListEntry) sink_caps
    src_caps chain (N b fuel : nat) :
  chain_wf (length fi) N chain → (Z.of_nat N ≤ G_MAXINT)%Z →
  b ≤ N → b < fuel →
  validate_chain_caps_loop fi sink_caps src_caps chain (Z.of_nat N) fuel
    (Z.of_nat b)
  = Some (scan_down
            (λ i, negb (boundary_intersects fi sink_caps src_caps chain i))
            (S b)).
Proof.
  intros Hwf HN. revert fuel.
  induction b as [|b IH]; intros fuel Hb Hfuel;
    (destruct fuel as [|fuel]; [lia|]);
    cbn [validate_chain_caps_loop scan_down];
    rewrite validate_chain_caps_upstream;
    pose proof Hwf as [Hlen _];
    rewrite (validate_chain_caps_downstream _ _ _ N) by (done || lia);
    unfold boundary_intersects;
    destruct (boundary_caps_defined fi sink_caps src_caps chain N _ Hwf Hb)
      as (up & down & -> & ->); cbn [mbind option_bind];
    destruct (gst_caps_can_intersect up down); cbn [negb]; try done.
  - rewrite (int_of_pred (S b)) by lia.
    replace (Z.of_nat (S b) - 1)%Z with (Z.of_nat b) by lia.
    destruct (Z.leb_spec 0 (Z.of_nat b)) as [_|?]; [|lia].
    apply IH; lia.
Qed.

Lemma validate_chain_caps_scan (autoconvert2 : GstAutoConvert2) sink_caps src_caps chain
    (N : nat) :
  chain_wf (length (factory_index (priv autoconvert2))) N chain →
  (Z.of_nat N ≤ G_MAXINT)%Z →
  validate_chain_caps autoconvert2 sink_caps src_caps chain (Z.of_nat N)
  = Some (scan_down
            (λ i, negb (boundary_intersects (factory_index (priv autoconvert2))
                          sink_caps src_caps chain i))
            (S N)).
Proof.
  intros Hwf HN. unfold validate_chain_caps. rewrite (int_of_nat N) by done.
  apply validate_chain_caps_loop_scan; [done|done|lia|lia].
Qed.

Lemma validate_non_consecutive_elements_loop_scan
    (fi : list FactoryListEntry) chain (N n fuel : nat) :
  chain_wf (length fi) N chain → (Z.of_nat N ≤ G_MAXINT)%Z →
  n < N → n ≤ fuel →
  validate_non_consecutive_elements_loop fi chain fuel (Z.of_nat n - 1)
  = Some (scan_down (adjacent_duplicate chain) n).
Proof.
  intros Hwf HN. revert fuel.
  induction n as [|n IH]; intros fuel Hn Hfuel.
  - destruct fuel; done.
  - destruct fuel as [|fuel]; [lia|].
    cbn [validate_non_consecutive_elements_loop scan_down].
    replace (Z.of_nat (S n) - 1)%Z with (Z.of_nat n) by lia.
    destruct (Z.leb_spec 0 (Z.of_nat n)) as [_|?]; [|lia].
    replace (Z.of_nat n + 1)%Z with (Z.of_nat (S n)) by lia.
    rewrite !array_get_nat.
    destruct (chain_wf_lookup _ _ _ n Hwf) as (p & Hp & HpK); [lia|].
    destruct (chain_wf_lookup _ _ _ (S n) Hwf) as (q & Hq & HqK); [lia|].
    unfold adjacent_duplicate. rewrite Hp, Hq. simpl.
    unfold gslist_data_ptr, gslist_non_null.
    destruct (Nat.ltb_spec p (length fi)); [|lia].
    destruct (Nat.ltb_spec q (length fi)); [|lia]. simpl.
    destruct (p =? q); [done|].
    rewrite (int_of_pred n) by lia. apply IH; lia.
Qed.

(** For a chain of at least one position, the scan starts at [N - 2]. *)
Lemma validate_non_consecutive_elements_scan
    (autoconvert2 : GstAutoConvert2) sink_caps
    src_caps chain (N : nat) :
  chain_wf (length (factory_index (priv autoconvert2))) N chain →
  (Z.of_nat N ≤ G_MAXINT)%Z → 1 ≤ N →
  validate_non_consecutive_elements autoconvert2 sink_caps src_caps chain
    (Z.of_nat N)
  = Some (scan_down (adjacent_duplicate chain) (N - 1)).
Proof.
  intros Hwf HN H1. unfold validate_non_consecutive_elements.
  assert (int_of (guint_of (Z.of_nat N - 2)) = Z.of_nat (N - 1) - 1)%Z
    as ->.
  { unfold G_MAXINT in HN. destruct (decide (N = 1)) as [->|].
    - done.
    - rewrite guint_of_id; [rewrite int_of_id|]; lia. }
  apply (validate_non_consecutive_elements_loop_scan _ _ N); [done|done|lia|lia].
Qed.

(** For the empty chain [chain_length - 2] wraps around as a [guint] and
    becomes [-2] as an [int]. *)
Lemma validate_non_consecutive_elements_empty
    (autoconvert2 : GstAutoConvert2) sink_caps
    src_caps chain :
  validate_non_consecutive_elements autoconvert2 sink_caps src_caps chain 0
  = Some (-2)%Z.
Proof. done. Qed.

End ValidatorFacts.

(** * The generator *)

Section GeneratorFacts.
Context `{GstCapsApi}.
Implicit Types (fi : list FactoryListEntry) (cursors : list nat).

Lemma odometer_length K digits digits' :
  odometer K digits = Some digits' → length digits' = length digits.
Proof.
  revert digits'. induction digits as [|c digits IH]; intros digits'; [done|].
  simpl. destruct (S c <? K); [by intros [= <-]|].
  destruct (odometer K digits) as [hi|]; [|done].
  intros [= <-]. simpl. by rewrite (IH hi).
Qed.

Lemma odometer_Forall K digits digits' :
  Forall (λ p, p < K) digits → odometer K digits = Some digits' →
  Forall (λ p, p < K) digits'.
Proof.
  revert digits'. induction digits as [|c digits IH]; intros digits' Hall;
    [done|].
  apply Forall_cons in Hall as [Hc Hall]. simpl.
  destruct (Nat.ltb_spec (S c) K).
  - intros [= <-]. by apply Forall_cons.
  - destruct (odometer K digits) as [hi|]; [|done].
    intros [= <-]. apply Forall_cons. split; [lia|]. by apply IH.
Qed.

(** The first loop of [advance_chain_generator], started at position
    [length pre] with the cursors [pre ++ suf], is the odometer step on
    [suf]; it leaves at a position inside the array exactly when no carry
    is lost. *)
Lemma advance_chain_generator_step_odometer fi (N : nat) suf :
  (Z.of_nat N ≤ G_MAXINT)%Z → Forall (λ p, p < length fi) suf →
  ∀ pre fuel, length pre + length suf = N → length suf ≤ fuel →
  ∃ j its,
    advance_chain_generator_step fi (Z.of_nat N) fuel
      (Z.of_nat (length pre)) (pre ++ suf) = Some (Z.of_nat j, its) ∧
    match odometer (length fi) suf with
    | Some hi => j < N ∧ its = pre ++ hi
    | None => j = N ∧ its = pre ++ replicate (length suf) 0
    end.
Proof.
  intros HN. induction suf as [|c suf IH]; intros Hall pre fuel Hlen Hfuel.
  - simpl in *. exists N, pre. rewrite Nat.add_0_r in Hlen. subst N.
    rewrite app_nil_r. split; [|done].
    destruct fuel; simpl; rewrite guint_of_nat by done;
      by rewrite Z.ltb_irrefl.
  - apply Forall_cons in Hall as [Hc Hall]. simpl in Hlen, Hfuel.
    destruct fuel as [|fuel]; [lia|]. cbn [advance_chain_generator_step].
    rewrite guint_of_nat by lia.
    destruct (Z.ltb_spec (Z.of_nat (length pre)) (Z.of_nat N)); [|lia].
    rewrite array_get_nat, list_lookup_middle by done.
    cbn [mbind option_bind]. unfold gslist_next, gslist_non_null.
    destruct (Nat.ltb_spec c (length fi)); [|lia]. cbn [mbind option_bind].
    rewrite array_set_nat by (rewrite length_app; simpl; lia).
    rewrite array_set_nat by (rewrite length_app; simpl; lia).
    rewrite !list_insert_middle by done. cbn [odometer].
    destruct (Nat.ltb_spec (S c) (length fi)).
    + exists (length pre), (pre ++ S c :: suf). cbn [mbind option_bind].
      split; [done|]. split; [lia|done].
    + cbn [mbind option_bind].
      replace (int_of (Z.of_nat (length pre) + 1))
        with (Z.of_nat (length (pre ++ [0]))).
      2:{ rewrite length_app. simpl. rewrite Nat2Z.inj_add.
          symmetry. apply int_of_id. unfold G_MAXINT in HN. lia. }
      replace (pre ++ 0 :: suf) with ((pre ++ [0]) ++ suf)
        by by rewrite <-app_assoc.
      destruct (IH Hall (pre ++ [0]) fuel) as (j & its & -> & Hspec).
      { rewrite length_app. simpl. lia. }
      { lia. }
      exists j, its. split; [done|].
      destruct (odometer (length fi) suf) as [hi|]; simpl;
        destruct Hspec as [Hj ->]; (split; [done|]);
        by rewrite <-app_assoc.
Qed.

(** The second loop of [advance_chain_generator] puts the head of the
    factory index at the positions it walks over. *)
Lemma advance_chain_generator_reset_replicate (D : nat) mid :
  (Z.of_nat D ≤ G_MAXINT)%Z →
  ∀ pre post fuel, length pre + length mid = D → length mid ≤ fuel →
  advance_chain_generator_reset (Z.of_nat D) fuel (Z.of_nat (length pre))
    (pre ++ mid ++ post)
  = Some (pre ++ replicate (length mid) 0 ++ post).
Proof.
  intros HD. induction mid as [|c mid IH]; intros pre post fuel Hlen Hfuel.
  - simpl in *. rewrite Nat.add_0_r in Hlen. subst D.
    destruct fuel; simpl; rewrite guint_of_nat by done;
      by rewrite Z.eqb_refl.
  - simpl in Hlen, Hfuel. destruct fuel as [|fuel]; [lia|].
    cbn [advance_chain_generator_reset].
    rewrite guint_of_nat by lia.
    destruct (Z.eqb_spec (Z.of_nat (length pre)) (Z.of_nat D)); [lia|].
    rewrite array_set_nat by (rewrite length_app; simpl; lia).
    cbn [mbind option_bind app].
    rewrite list_insert_middle by done.
    replace (int_of (Z.of_nat (length pre) + 1))
      with (Z.of_nat (length (pre ++ [0]))).
    2:{ rewrite length_app. simpl. rewrite Nat2Z.inj_add.
        symmetry. apply int_of_id. unfold G_MAXINT in HD. lia. }
    replace (pre ++ 0 :: mid ++ post) with ((pre ++ [0]) ++ mid ++ post)
      by by rewrite <-app_assoc.
    rewrite IH.
    + by rewrite <-app_assoc.
    + rewrite length_app. simpl. lia.
    + lia.
Qed.

(** [advance_chain_generator] on a well-formed generator. *)
Lemma advance_chain_generator_spec fi gen (N D : nat) :
  (Z.of_nat N ≤ G_MAXINT)%Z → gen_length gen = Z.of_nat N →
  chain_wf (length fi) N (iterators gen) → D ≤ N →
  advance_chain_generator gen fi (Z.of_nat D)
  = Some match advance_spec (length fi) D (iterators gen) with
         | Some its => (true, set_iterators gen its)
         | None =>
             (false, set_iterators gen
                       (take D (iterators gen) ++ replicate (N - D) 0))
         end.
Proof.
  intros HN Hlen [HlenN Hall] HD. unfold advance_chain_generator.
  rewrite Hlen, (int_of_nat D), !Nat2Z.id by lia.
  destruct (advance_chain_generator_step_odometer fi N
              (drop D (iterators gen)) HN) with
    (pre := take D (iterators gen)) (fuel := N) as (j & its & Hstep & Hspec).
  { by apply Forall_drop. }
  { rewrite length_take, length_drop. lia. }
  { rewrite length_drop. lia. }
  rewrite length_take, take_drop in Hstep.
  replace (length (iterators gen) `min` D) with D in Hstep by lia.
  replace (D `min` length (iterators gen)) with D in Hstep by lia.
  rewrite Hstep. cbn [mbind option_bind]. unfold advance_spec.
  destruct (odometer (length fi) (drop D (iterators gen))) as [hi|];
    destruct Hspec as [Hj ->]; cbn [fmap option_fmap option_map];
    rewrite guint_of_nat by lia.
  - destruct (Z.eqb_spec (Z.of_nat j) (Z.of_nat N)); [lia|].
    pose proof (advance_chain_generator_reset_replicate D
                  (take D (iterators gen))) as Hreset.
    specialize (Hreset ltac:(lia) [] hi D).
    rewrite length_take in Hreset.
    replace (D `min` length (iterators gen)) with D in Hreset by lia.
    simpl in Hreset. change (Z.of_nat 0) with 0%Z in Hreset.
    rewrite Hreset by lia. done.
  - subst j. rewrite Z.eqb_refl, length_drop, HlenN. done.
Qed.

End GeneratorFacts.

(** * Mixed-radix order of the cursors *)

Section RankFacts.
Implicit Types (K N D : nat) (cursors digits : list nat).

Lemma rank_lt K cursors :
  Forall (λ p, p < K) cursors → rank K cursors < K ^ length cursors.
Proof.
  induction 1 as [|c cursors Hc _ IH]; simpl; [lia|]. nia.
Qed.

Lemma rank_app K pre suf :
  rank K (pre ++ suf) = rank K pre + K ^ length pre * rank K suf.
Proof. induction pre as [|c pre IH]; simpl; [lia|]. rewrite IH. lia. Qed.

Lemma rank_replicate K n : rank K (replicate n 0) = 0.
Proof. induction n as [|n IH]; simpl; [done|]. rewrite IH. lia. Qed.

Lemma rank_inj K cursors cursors' :
  length cursors = length cursors' →
  Forall (λ p, p < K) cursors → Forall (λ p, p < K) cursors' →
  rank K cursors = rank K cursors' → cursors = cursors'.
Proof.
  intros Hlen Hall. revert cursors' Hlen.
  induction Hall as [|c cursors Hc _ IH]; intros [|c' cursors'] Hlen Hall';
    try done.
  apply Forall_cons in Hall' as [Hc' Hall']. simpl. intros Hrank.
  assert (rank K cursors = rank K cursors') as Hr.
  { destruct (Nat.lt_trichotomy (rank K cursors) (rank K cursors'))
      as [?|[?|?]]; [nia|done|nia]. }
  assert (c = c') as -> by (rewrite Hr in Hrank; lia).
  f_equal. apply IH; [by injection Hlen|done|done].
Qed.

Lemma odometer_rank K digits digits' :
  Forall (λ p, p < K) digits → odometer K digits = Some digits' →
  rank K digits' = S (rank K digits).
Proof.
  intros Hall. revert digits'.
  induction Hall as [|c digits Hc _ IH]; intros digits'; [done|]. simpl.
  destruct (Nat.ltb_spec (S c) K).
  - intros [= <-]. simpl. lia.
  - destruct (odometer K digits) as [hi|]; [|done].
    intros [= <-]. simpl. rewrite (IH hi) by done. nia.
Qed.

Lemma odometer_None_rank K digits :
  Forall (λ p, p < K) digits → odometer K digits = None →
  S (rank K digits) = K ^ length digits.
Proof.
  induction 1 as [|c digits Hc _ IH]; [done|]. simpl.
  destruct (Nat.ltb_spec (S c) K); [done|].
  destruct (odometer K digits) as [hi|]; [done|].
  intros _. specialize (IH eq_refl). nia.
Qed.

Lemma chain_wf_replicate K N : 0 < K → chain_wf K N (replicate N 0).
Proof.
  intros HK. split; [by rewrite length_replicate|].
  apply Forall_replicate. lia.
Qed.

Lemma rank_take_drop K D cursors :
  D ≤ length cursors →
  rank K cursors = rank K (take D cursors) + K ^ D * rank K (drop D cursors).
Proof.
  intros HD. rewrite <-(take_drop D cursors) at 1.
  rewrite rank_app, length_take. by replace (D `min` length cursors) with D by lia.
Qed.

(** A successful advance from depth [D] lands on the least tuple above the
    current one whose positions below [D] are all at the first entry. *)
Lemma advance_spec_rank K N D cursors cursors' :
  chain_wf K N cursors → D ≤ N →
  advance_spec K D cursors = Some cursors' →
  chain_wf K N cursors' ∧
  rank K cursors' = K ^ D * S (rank K (drop D cursors)).
Proof.
  intros [Hlen Hall] HD. unfold advance_spec.
  destruct (odometer K (drop D cursors)) as [hi|] eqn:Hodo; [|done].
  intros [= <-].
  assert (Forall (λ p, p < K) (drop D cursors)) as Hdrop
    by by apply Forall_drop.
  assert (0 < K).
  { destruct (drop D cursors) as [|c ?] eqn:E; [done|].
    apply Forall_cons in Hdrop as [? _]. lia. }
  split; [split|].
  - rewrite length_app, length_replicate, (odometer_length _ _ _ Hodo),
      length_drop. lia.
  - apply Forall_app. split; [apply Forall_replicate; lia|].
    by eapply odometer_Forall.
  - rewrite rank_app, rank_replicate, length_replicate,
      (odometer_rank _ _ _ Hdrop Hodo). lia.
Qed.

Lemma advance_spec_rank_lt K N D cursors cursors' :
  chain_wf K N cursors → D ≤ N →
  advance_spec K D cursors = Some cursors' →
  rank K cursors < rank K cursors'.
Proof.
  intros Hwf HD Hadv.
  destruct (advance_spec_rank _ _ _ _ _ Hwf HD Hadv) as [_ ->].
  destruct Hwf as [Hlen Hall]. rewrite (rank_take_drop K D cursors) by lia.
  assert (rank K (take D cursors) < K ^ D).
  { pose proof (rank_lt K (take D cursors) (Forall_take _ _ _ Hall)) as Hlt.
    rewrite length_take in Hlt.
    by replace (D `min` length cursors) with D in Hlt by lia. }
  lia.
Qed.

(** Agreement from position [D] on, in terms of ranks. *)
Lemma rank_drop_eq K N D cursors cursors' :
  chain_wf K N cursors → chain_wf K N cursors' → D ≤ N →
  rank K cursors ≤ rank K cursors' →
  rank K cursors' < K ^ D * S (rank K (drop D cursors)) →
  drop D cursors' = drop D cursors.
Proof.
  intros [Hlen Hall] [Hlen' Hall'] HD Hle Hlt.
  apply (rank_inj K).
  - rewrite !length_drop. lia.
  - by apply Forall_drop.
  - by apply Forall_drop.
  - rewrite (rank_take_drop K D cursors) in Hle by lia.
    rewrite (rank_take_drop K D cursors') in Hle, Hlt by lia.
    assert (rank K (take D cursors') < K ^ D).
    { pose proof (rank_lt K (take D cursors') (Forall_take _ _ _ Hall')) as H.
      rewrite length_take in H.
      by replace (D `min` length cursors') with D in H by lia. }
    nia.
Qed.

(** ** The list of all chains *)

Lemma lookup_bind_uniform {A B} (f : A → list B) (l : list A) K i j x :
  (∀ y, length (f y) = K) → l !! i = Some x → j < K →
  (l ≫= f) !! (j + K * i) = f x !! j.
Proof.
  intros Hf. revert i. induction l as [|y l IH]; intros i Hi Hj; [done|].
  rewrite bind_cons. destruct i as [|i]; simpl in Hi.
  - injection Hi as ->. rewrite Nat.mul_0_r, Nat.add_0_r.
    apply lookup_app_l. by rewrite Hf.
  - rewrite lookup_app_r by (rewrite Hf; lia). rewrite Hf.
    replace (j + K * S i - K) with (j + K * i) by lia. by apply IH.
Qed.

Lemma all_chains_length K N : length (all_chains K N) = K ^ N.
Proof.
  induction N as [|N IH]; [done|]. cbn [all_chains].
  rewrite Nat.pow_succ_r', <-IH. clear IH.
  generalize (all_chains K N). intros l.
  induction l as [|hi l IHl]; [simpl; lia|].
  rewrite bind_cons, length_app, IHl, length_fmap, length_seq. simpl. lia.
Qed.

Lemma all_chains_lookup_inv K N r chain :
  all_chains K N !! r = Some chain → chain_wf K N chain ∧ rank K chain = r.
Proof.
  revert r chain. induction N as [|N IH]; intros r chain Hr.
  - destruct r; [|done]. injection Hr as <-. by repeat split.
  - pose proof (lookup_lt_Some _ _ _ Hr) as Hlt.
    rewrite all_chains_length in Hlt. simpl in Hlt.
    assert (0 < K) as HK by (destruct K; simpl in *; lia).
    pose proof (Nat.div_mod_eq r K) as Hdm.
    pose proof (Nat.mod_upper_bound r K ltac:(lia)) as Hmod.
    assert (r `div` K < K ^ N) as Hdiv
      by (apply Nat.Div0.div_lt_upper_bound; lia).
    destruct (lookup_lt_is_Some_2 (all_chains K N) (r `div` K)) as [hi Hhi];
      [by rewrite all_chains_length|].
    destruct (IH _ _ Hhi) as [[Hlen Hall] Hrank].
    cbn [all_chains] in Hr.
    replace r with (r `mod` K + K * (r `div` K)) in Hr at 1 by lia.
    rewrite (lookup_bind_uniform _ _ K _ _ hi) in Hr;
      [|intros; by rewrite length_fmap, length_seq|done|done].
    rewrite list_lookup_fmap, lookup_seq_lt in Hr by done.
    injection Hr as <-. split; [split|].
    + simpl. by rewrite Hlen.
    + by apply Forall_cons.
    + simpl. lia.
Qed.

Lemma all_chains_lookup K N chain :
  chain_wf K N chain → all_chains K N !! rank K chain = Some chain.
Proof.
  intros [Hlen Hall].
  destruct (lookup_lt_is_Some_2 (all_chains K N) (rank K chain)) as [c Hc].
  { rewrite all_chains_length, <-Hlen. by apply rank_lt. }
  destruct (all_chains_lookup_inv _ _ _ _ Hc) as [[Hlen' Hall'] Hrank].
  rewrite Hc. f_equal. apply (rank_inj K); [lia|done..].
Qed.

Lemma all_chains_NoDup K N : NoDup (all_chains K N).
Proof.
  apply NoDup_alt. intros i j chain Hi Hj.
  apply all_chains_lookup_inv in Hi as [_ <-].
  by apply all_chains_lookup_inv in Hj as [_ <-].
Qed.

Lemma all_chains_elem_of K N chain :
  chain ∈ all_chains K N ↔ chain_wf K N chain.
Proof.
  rewrite list_elem_of_lookup. split.
  - intros [r Hr]. by apply all_chains_lookup_inv in Hr as [? _].
  - intros Hwf. exists (rank K chain). by apply all_chains_lookup.
Qed.

End RankFacts.

(** * Searching a list from a position on *)

Section FindFacts.
Context {A : Type} (P : A → bool).
Implicit Types (l : list A).

Lemma find_drop_hit l a x :
  l !! a = Some x → P x = true → find P (drop a l) = Some x.
Proof. intros Hx HP. rewrite (drop_S _ _ _ Hx). simpl. by rewrite HP. Qed.

Lemma find_drop_skip l a b :
  a ≤ b →
  (∀ i x, a ≤ i < b → l !! i = Some x → P x = false) →
  find P (drop a l) = find P (drop b l).
Proof.
  intros Hab. induction Hab as [|b Hab IH]; intros Hrej; [done|].
  rewrite IH by (intros i x Hi; apply Hrej; lia).
  destruct (l !! b) as [x|] eqn:Hx.
  - rewrite (drop_S _ _ _ Hx). simpl. rewrite (Hrej b x); [done|lia|done].
  - apply lookup_ge_None in Hx. by rewrite !drop_ge by lia.
Qed.

Lemma find_drop_none l a :
  (∀ i x, a ≤ i → l !! i = Some x → P x = false) →
  find P (drop a l) = None.
Proof.
  intros Hrej. destruct (decide (a ≤ length l)).
  - rewrite (find_drop_skip l a (length l)); [by rewrite drop_all|done|].
    intros i x Hi. apply Hrej. lia.
  - by rewrite drop_ge by lia.
Qed.


Lemma find_None_lookup l i x :
  find P l = None → l !! i = Some x → P x = false.
Proof.
  intros Hfind Hx. apply list_elem_of_lookup_2, list_elem_of_In in Hx.
  by apply (find_none P l Hfind).
Qed.

End FindFacts.

(** * The validator pipeline and the pruning search *)

Section PipelineFacts.
Context `{GstCapsApi}.
Variable autoconvert2 : GstAutoConvert2.
Variables sink_caps src_caps : GstCaps.
Variable N : nat.
Hypothesis HN : (Z.of_nat N ≤ G_MAXINT)%Z.

Local Abbreviation fi := (factory_index (priv autoconvert2)).
Local Abbreviation defect := (chain_defect fi sink_caps src_caps).

(** The pipeline is the first validator that does not say [-1]. *)
Lemma validate_chain_first_invalid (chain : list nat) (chain_length : Z) :
  gst_auto_convert2_validate_chain autoconvert2 sink_caps src_caps chain
    chain_length
  = (depth ← validate_chain_caps autoconvert2 sink_caps src_caps chain
               chain_length;
     if negb (depth =? -1)%Z then Some depth
     else
       depth ← validate_non_consecutive_elements autoconvert2 sink_caps
                 src_caps chain chain_length;
       if negb (depth =? -1)%Z then Some depth else Some (-1)%Z).
Proof. done. Qed.

Lemma adjacent_duplicate_end (chain : list nat) p :
  length chain ≤ S p → adjacent_duplicate chain p = false.
Proof.
  intros Hp. unfold adjacent_duplicate.
  rewrite (lookup_ge_None_2 chain (S p)) by done. by destruct (chain !! p).
Qed.

Lemma negb_eqb_minus_one (z : Z) :
  (0 ≤ z)%Z → negb (z =? -1)%Z = true.
Proof. intros Hz. by destruct (Z.eqb_spec z (-1)); [lia|]. Qed.

(** The pipeline reports either a negative number, and then no position of
    the chain shows a defect, or a position that shows one. *)
Lemma validate_chain_depth (chain : list nat) :
  chain_wf (length fi) N chain →
  ∃ r, gst_auto_convert2_validate_chain autoconvert2 sink_caps src_caps
         chain (Z.of_nat N) = Some r ∧
       (((r < 0)%Z ∧ ∀ p, p ≤ N → defect chain p = false) ∨
        (∃ p : nat, r = Z.of_nat p ∧ p ≤ N ∧ defect chain p = true)).
Proof.
  intros Hwf. rewrite validate_chain_first_invalid.
  rewrite validate_chain_caps_scan by done. cbn [mbind option_bind].
  destruct (scan_down_range
              (λ i, negb (boundary_intersects fi sink_caps src_caps chain i))
              (S N)) as [Hcaps|Hcaps].
  - rewrite Hcaps. cbn [Z.eqb negb]. rewrite scan_down_none in Hcaps.
    destruct (decide (N = 0)) as [HN0|HN0].
    + revert Hwf Hcaps. rewrite HN0. intros [Hlen _] Hcaps.
      change (Z.of_nat 0) with 0%Z.
      rewrite validate_non_consecutive_elements_empty. eexists.
      split; [done|]. left. split; [done|]. intros p Hp.
      unfold chain_defect. rewrite Hcaps by lia.
      by rewrite adjacent_duplicate_end by lia.
    + rewrite validate_non_consecutive_elements_scan by (done || lia).
      cbn [mbind option_bind].
      destruct (scan_down_range (adjacent_duplicate chain) (N - 1))
        as [Hdup|Hdup].
      * rewrite Hdup. cbn [Z.eqb negb]. eexists. split; [done|].
        left. split; [done|]. intros p Hp.
        unfold chain_defect. rewrite Hcaps by lia.
        rewrite scan_down_none in Hdup.
        destruct (decide (p < N - 1)); [by rewrite Hdup|].
        destruct Hwf as [Hlen _]. by rewrite adjacent_duplicate_end by lia.
      * rewrite negb_eqb_minus_one by lia. eexists. split; [done|].
        right. exists (Z.to_nat (scan_down (adjacent_duplicate chain) (N - 1))).
        split; [lia|].
        pose proof (scan_down_some (adjacent_duplicate chain) (N - 1)
                      (Z.to_nat (scan_down (adjacent_duplicate chain) (N - 1))))
          as [Hsome _].
        destruct Hsome as (Hlt & Hbad & _); [lia|].
        split; [lia|]. unfold chain_defect. rewrite Hbad. apply orb_true_r.
  - rewrite negb_eqb_minus_one by lia. eexists. split; [done|].
    right.
    set (bad := λ i, negb (boundary_intersects fi sink_caps src_caps chain i))
      in *.
    exists (Z.to_nat (scan_down bad (S N))). split; [lia|].
    pose proof (scan_down_some bad (S N) (Z.to_nat (scan_down bad (S N))))
      as [Hsome _].
    destruct Hsome as (Hlt & Hbad & _); [lia|].
    split; [lia|]. unfold chain_defect. subst bad. cbv beta in Hbad. by rewrite Hbad.
Qed.

(** A defect at position [p] is a matter of the positions from [p - 1]
    on. *)
Lemma chain_defect_local (chain chain' : list nat) (p : nat) :
  length chain' = length chain →
  drop (skip_depth p) chain' = drop (skip_depth p) chain →
  defect chain' p = defect chain p.
Proof.
  clear HN. intros Hlen Hdrop.
  assert (∀ i, skip_depth p ≤ i → chain' !! i = chain !! i) as Hsame.
  { intros i Hi. replace i with (skip_depth p + (i - skip_depth p)) by lia.
    by rewrite <-!lookup_drop, Hdrop. }
  unfold skip_depth in Hsame.
  unfold chain_defect, boundary_intersects, upstream_caps, downstream_caps,
    adjacent_duplicate.
  rewrite Hlen, (Hsame p), (Hsame (S p)) by lia.
  destruct p as [|p]; [done|]. by rewrite (Hsame p) by lia.
Qed.

End PipelineFacts.

Section SearchFacts.
Context `{GstCapsApi}.
Variable klass : GstAutoConvert2Class.
Variable autoconvert2 : GstAutoConvert2.
Variable route : GstAutoConvert2TransformRoute.
Variable N : nat.
Hypothesis Hklass : validate_chain klass = gst_auto_convert2_validate_chain.
Hypothesis HN : (Z.of_nat N ≤ G_MAXINT)%Z.

Local Abbreviation fi := (factory_index (priv autoconvert2)).
Local Abbreviation K := (length (factory_index (priv autoconvert2))).
Local Abbreviation defect :=
  (chain_defect fi (route_sink_caps route) (route_src_caps route)).
Local Abbreviation accepted := (chain_accepted klass autoconvert2 route N).

Lemma chain_accepted_no_defect (chain : list nat) :
  chain_wf K N chain →
  accepted chain = true ↔ ∀ p, p ≤ N → defect chain p = false.
Proof.
  intros Hwf. unfold chain_accepted. rewrite Hklass.
  destruct (validate_chain_depth autoconvert2 (route_sink_caps route)
              (route_src_caps route) N HN chain Hwf)
    as (r & -> & [[Hr Hnone]|(p & -> & Hp & Hdefect)]).
  - split; [done|]. intros _. by apply Z.ltb_lt.
  - split.
    + intros Hlt. apply Z.ltb_lt in Hlt. lia.
    + intros Hnone. rewrite Hnone in Hdefect; done.
Qed.

Lemma chain_defect_rejected (chain : list nat) p :
  chain_wf K N chain → p ≤ N → defect chain p = true →
  accepted chain = false.
Proof.
  intros Hwf Hp Hdefect. apply not_true_is_false. intros Hacc.
  rewrite chain_accepted_no_defect in Hacc by done.
  rewrite Hacc in Hdefect; done.
Qed.

(** The candidates between a rejected chain and the chain the generator
    advances to are rejected too. *)
Lemma advance_skips_rejected (cursors cursors' : list nat) (D : nat) :
  chain_wf K N cursors → D ≤ N →
  (∀ t, chain_wf K N t → drop D t = drop D cursors →
        rank K cursors < rank K t → accepted t = false) →
  advance_spec K D cursors = Some cursors' →
  ∀ i t, rank K cursors < i < rank K cursors' →
         all_chains K N !! i = Some t → accepted t = false.
Proof.
  intros Hwf HD Hpruned Hadv i t Hi Ht.
  apply all_chains_lookup_inv in Ht as [Hwft <-].
  destruct (advance_spec_rank _ _ _ _ _ Hwf HD Hadv) as [_ Hrank].
  apply Hpruned; [done| |lia].
  apply (rank_drop_eq K N); [done|done|done|lia|lia].
Qed.

(** When the generator is done, every candidate after the current one is
    rejected. *)
Lemma advance_done_rejected (cursors : list nat) (D : nat) :
  chain_wf K N cursors → D ≤ N →
  (∀ t, chain_wf K N t → drop D t = drop D cursors →
        rank K cursors < rank K t → accepted t = false) →
  advance_spec K D cursors = None →
  ∀ i t, rank K cursors < i →
         all_chains K N !! i = Some t → accepted t = false.
Proof.
  intros Hwf HD Hpruned Hadv i t Hi Ht.
  apply all_chains_lookup_inv in Ht as [Hwft <-].
  apply Hpruned; [done| |lia].
  apply (rank_drop_eq K N); [done|done|done|lia|].
  unfold advance_spec in Hadv.
  destruct (odometer K (drop D cursors)) eqn:Hodo; [done|].
  destruct Hwf as [Hlen Hall].
  rewrite (odometer_None_rank K (drop D cursors)), length_drop, Hlen,
    <-Nat.pow_add_r by (done || by apply Forall_drop).
  replace (D + (N - D)) with N by lia.
  destruct Hwft as [Hlent Hallt]. rewrite <-Hlent. by apply rank_lt.
Qed.

Lemma next_depth_skip (p : nat) :
  p ≤ N →
  (if (0 <? Z.of_nat p)%Z then int_of (Z.of_nat p - 1) else Z.of_nat p)
  = Z.of_nat (skip_depth p).
Proof.
  intros Hp. unfold skip_depth. destruct (Z.ltb_spec 0 (Z.of_nat p)).
  - rewrite int_of_pred by lia. lia.
  - lia.
Qed.

(** The loop of [generate_next_chain], entered with a generator that has
    given out its first chain: it stops at the first accepted candidate
    after the current one, or reports that there is none. *)
Lemma generate_next_chain_loop_search (fuel : nat) :
  ∀ (gen : ChainGenerator) (D : nat),
    generator_wf K N route gen → gen_init gen = false → D ≤ N →
    (∀ t, chain_wf K N t → drop D t = drop D (iterators gen) →
          rank K (iterators gen) < rank K t → accepted t = false) →
    K ^ N - rank K (iterators gen) ≤ fuel →
    ∃ found gen',
      generate_next_chain_loop klass autoconvert2 fuel (Z.of_nat D) gen
      = Some (found, gen') ∧
      match find accepted
              (drop (S (rank K (iterators gen))) (all_chains K N)) with
      | Some chain => found = true ∧ iterators gen' = chain
      | None => found = false
      end.
Proof.
  induction fuel as [|fuel IH];
    intros gen D (Hsink & Hsrc & Hlen & Hwf) Hinit HD Hpruned Hfuel.
  { pose proof Hwf as [HlenN Hall]. pose proof (rank_lt K _ Hall). 
    rewrite HlenN in *. lia. }
  cbn [generate_next_chain_loop]. rewrite Hinit.
  rewrite guint_of_nat by lia.
  rewrite (advance_chain_generator_spec fi gen N D) by done.
  cbn [mbind option_bind].
  destruct (advance_spec K D (iterators gen)) as [cursors'|] eqn:Hadv;
    cbn [negb].
  2:{ eexists _, _. split; [done|].
      rewrite find_drop_none; [done|]. intros i t Hi.
      apply (advance_done_rejected (iterators gen) D); [done..|lia]. }
  destruct (advance_spec_rank _ _ _ _ _ Hwf HD Hadv) as [Hwf' Hrank'].
  pose proof (advance_spec_rank_lt _ _ _ _ _ Hwf HD Hadv) as Hlt.
  pose proof (advance_skips_rejected _ _ _ Hwf HD Hpruned Hadv) as Hskip.
  cbn [set_iterators gen_sink_caps gen_src_caps gen_length iterators].
  rewrite Hklass, Hsink, Hsrc, Hlen.
  destruct (validate_chain_depth autoconvert2 (route_sink_caps route)
              (route_src_caps route) N HN cursors' Hwf')
    as (r & Hr & [[Hneg Hnone]|(p & -> & Hp & Hdefect)]);
    rewrite Hr; cbn [mbind option_bind].
  - destruct (Z.ltb_spec r 0); [|lia]. eexists _, _. split; [done|].
    rewrite (find_drop_skip accepted _ _ (rank K cursors')) by
      (lia || (intros i t Hi; apply Hskip; lia)).
    rewrite (find_drop_hit accepted _ _ cursors'); [done| |].
    + by apply all_chains_lookup.
    + by apply chain_accepted_no_defect.
  - destruct (Z.ltb_spec (Z.of_nat p) 0); [lia|].
    rewrite next_depth_skip by done.
    pose proof (chain_defect_rejected _ _ Hwf' Hp Hdefect) as Hrej.
    destruct (IH (set_iterators gen cursors') (skip_depth p))
      as (found & gen' & Hloop & Hfind).
    + exact (conj Hsink (conj Hsrc (conj Hlen Hwf'))).
    + done.
    + unfold skip_depth. lia.
    + intros t Hwft Hdrop _. apply (chain_defect_rejected t p); [done|done|].
      rewrite <-Hdefect.
      apply chain_defect_local; [|exact Hdrop].
      destruct Hwft as [-> _]. by destruct Hwf' as [-> _].
    + cbn [set_iterators iterators]. lia.
    + exists found, gen'. split; [done|].
      cbn [set_iterators iterators] in Hfind.
      rewrite (find_drop_skip accepted _ _ (S (rank K cursors'))); [done|lia|].
      intros i t Hi Ht. destruct (decide (i = rank K cursors')) as [->|].
      * rewrite all_chains_lookup in Ht by done. by injection Ht as <-.
      * apply (Hskip i); [lia|done].
Qed.

(** [generate_next_chain], on a catalog that is not empty. *)
Lemma generate_next_chain_search (gen : ChainGenerator) (fuel : nat) :
  0 < K → generator_wf K N route gen →
  K ^ N - rank K (iterators gen) + (if gen_init gen then 1 else 0) ≤ fuel →
  ∃ found gen',
    generate_next_chain klass autoconvert2 fuel gen = Some (found, gen') ∧
    match find accepted
            (drop (if gen_init gen then rank K (iterators gen)
                   else S (rank K (iterators gen))) (all_chains K N)) with
    | Some chain => found = true ∧ iterators gen' = chain
    | None => found = false
    end.
Proof.
  intros HK Hgen Hfuel.
  assert (generate_next_chain klass autoconvert2 fuel gen
          = generate_next_chain_loop klass autoconvert2 fuel 0 gen) as ->.
  { unfold generate_next_chain. destruct fi; [simpl in HK; lia|done]. }
  destruct (gen_init gen) eqn:Hinit.
  - destruct fuel as [|fuel]; [lia|].
    cbn [generate_next_chain_loop]. rewrite Hinit.
    cbn [mbind option_bind negb set_init gen_sink_caps gen_src_caps
           gen_length iterators].
    destruct Hgen as (Hsink & Hsrc & Hlen & Hwf).
    rewrite Hklass, Hsink, Hsrc, Hlen.
    destruct (validate_chain_depth autoconvert2 (route_sink_caps route)
                (route_src_caps route) N HN _ Hwf)
      as (r & Hr & [[Hneg Hnone]|(p & -> & Hp & Hdefect)]);
      rewrite Hr; cbn [mbind option_bind].
    + destruct (Z.ltb_spec r 0); [|lia]. eexists _, _. split; [done|].
      rewrite (find_drop_hit accepted _ _ (iterators gen)); [done| |].
      * by apply all_chains_lookup.
      * by apply chain_accepted_no_defect.
    + destruct (Z.ltb_spec (Z.of_nat p) 0); [lia|].
      rewrite next_depth_skip by done.
      pose proof (chain_defect_rejected _ _ Hwf Hp Hdefect) as Hrej.
      destruct (generate_next_chain_loop_search fuel (set_init gen false)
                  (skip_depth p)) as (found & gen' & Hloop & Hfind).
      * exact (conj Hsink (conj Hsrc (conj Hlen Hwf))).
      * done.
      * unfold skip_depth. lia.
      * intros t Hwft Hdrop _. apply (chain_defect_rejected t p); [done|done|].
        rewrite <-Hdefect.
        apply chain_defect_local; [|exact Hdrop].
        destruct Hwft as [-> _]. by destruct Hwf as [-> _].
      * cbn [set_init iterators]. lia.
      * exists found, gen'. split; [done|].
        cbn [set_init iterators] in Hfind.
        rewrite (find_drop_skip accepted _ _ (S (rank K (iterators gen))));
          [done|lia|].
        intros i t Hi Ht. assert (i = rank K (iterators gen)) as -> by lia.
        pose proof Hwf as Hwf2.
        rewrite all_chains_lookup in Ht by done. by injection Ht as <-.
  - change 0%Z with (Z.of_nat 0).
    apply generate_next_chain_loop_search; [done|done|lia| |lia].
    intros t Hwft Hdrop Hlt. rewrite !drop_0 in Hdrop. subst t. lia.
Qed.

End SearchFacts.

(** * Properties of the validators *)

(** Well-formedness of a chain that is written out. *)
Ltac concrete_chain_wf := split; [reflexivity|repeat constructor].

(** C3. On a candidate chain of [N] positions, [validate_chain_caps] looks
    at the [N + 1] boundaries (boundary 0 has the source caps upstream,
    boundary [N] the destination caps downstream, boundary [b] the output
    caps of position [b - 1] and the input caps of position [b]). It
    returns [-1] exactly when the two caps of every boundary intersect, and
    otherwise the largest boundary whose caps do not. *)
Theorem validate_chain_caps_last_failing_boundary `{GstCapsApi}
    (autoconvert2 : GstAutoConvert2) (source_caps destination_caps : GstCaps)
    (chain : list nat) (N : nat) :
  chain_wf (length (factory_index (priv autoconvert2))) N chain →
  (Z.of_nat N ≤ G_MAXINT)%Z →
  let intersects :=
    boundary_intersects (factory_index (priv autoconvert2)) source_caps
      destination_caps chain in
  ∃ r, validate_chain_caps autoconvert2 source_caps destination_caps chain
         (Z.of_nat N) = Some r ∧
       (r = (-1)%Z ↔ ∀ b, b ≤ N → intersects b = true) ∧
       (r ≠ (-1)%Z →
        ∃ b, r = Z.of_nat b ∧ b ≤ N ∧ intersects b = false ∧
             ∀ b', b < b' ≤ N → intersects b' = true).
Proof.
  intros Hwf HN intersects. eexists. split.
  { by apply validate_chain_caps_scan. }
  fold intersects. set (bad := λ i, negb (intersects i)). split.
  - rewrite scan_down_none. split; intros Hall b Hb.
    + apply negb_false_iff. apply Hall. lia.
    + unfold bad. rewrite Hall by lia. done.
  - intros Hne. destruct (scan_down_range bad (S N)) as [?|Hrange]; [done|].
    exists (Z.to_nat (scan_down bad (S N))).
    destruct (scan_down_some bad (S N) (Z.to_nat (scan_down bad (S N))))
      as [(Hlt & Hbad & Hafter) _]; [lia|].
    split; [lia|]. split; [lia|]. split.
    + by apply negb_true_iff.
    + intros b' Hb'. apply negb_false_iff, Hafter. lia.
Qed.

Lemma validate_chain_caps_last_failing_boundary_witness :
  chain_wf 2 2 [1; 0] ∧ (Z.of_nat 2 ≤ G_MAXINT)%Z ∧
  ∃ r, validate_chain_caps (example_element rgb_yuv_i420) [RGB] [RGB]
         [1; 0] (Z.of_nat 2) = Some r ∧
       (r = (-1)%Z ↔
        ∀ b, b ≤ 2 →
             boundary_intersects
               (factory_index (priv (example_element rgb_yuv_i420)))
               [RGB] [RGB] [1; 0] b = true) ∧
       (r ≠ (-1)%Z →
        ∃ b, r = Z.of_nat b ∧ b ≤ 2 ∧
             boundary_intersects
               (factory_index (priv (example_element rgb_yuv_i420)))
               [RGB] [RGB] [1; 0] b = false ∧
             ∀ b', b < b' ≤ 2 →
                   boundary_intersects
                     (factory_index (priv (example_element rgb_yuv_i420)))
                     [RGB] [RGB] [1; 0] b' = true).
Proof.
  assert (chain_wf 2 2 [1; 0]) as Hwf.
  { concrete_chain_wf. }
  assert (Z.of_nat 2 ≤ G_MAXINT)%Z as HN by (by vm_compute).
  split; [exact Hwf|]. split; [exact HN|].
  exact (validate_chain_caps_last_failing_boundary (H:=FormatCaps)
           (example_element rgb_yuv_i420) [RGB] [RGB] [1; 0] 2 Hwf HN).
Defined.

(** C5, at the chain of length 0: no two positions repeat an entry, and
    [validate_non_consecutive_elements] returns [-2], not the [-1] that
    [gst_auto_convert2_validate_chain] takes for "valid": [chain_length - 2]
    is computed in [guint] and lands on [-2] as an [int]. The pipeline hands
    that [-2] on when the route's caps intersect. *)
Theorem validate_non_consecutive_elements_empty_chain `{GstCapsApi}
    (autoconvert2 : GstAutoConvert2) (source_caps destination_caps : GstCaps) :
  (∀ d, adjacent_duplicate [] d = false) ∧
  validate_non_consecutive_elements autoconvert2 source_caps
    destination_caps [] 0%Z = Some (-2)%Z ∧
  gst_auto_convert2_validate_chain autoconvert2 source_caps destination_caps
    [] 0%Z
  = Some (if gst_caps_can_intersect source_caps destination_caps
          then (-2)%Z else 0%Z).
Proof.
  split; [done|]. split; [done|].
  rewrite validate_chain_first_invalid.
  rewrite validate_non_consecutive_elements_empty.
  unfold validate_chain_caps. simpl.
  by destruct (gst_caps_can_intersect source_caps destination_caps).
Qed.

(** X1. From one position on, [validate_non_consecutive_elements] returns [-1]
    exactly when no two neighbours repeat an entry, and otherwise the
    largest position that repeats in the next one. *)
Lemma validate_non_consecutive_elements_last_duplicate `{GstCapsApi}
    (autoconvert2 : GstAutoConvert2) (source_caps destination_caps : GstCaps)
    (chain : list nat) (N : nat) :
  chain_wf (length (factory_index (priv autoconvert2))) N chain →
  (Z.of_nat N ≤ G_MAXINT)%Z → 1 ≤ N →
  ∃ r, validate_non_consecutive_elements autoconvert2 source_caps
         destination_caps chain (Z.of_nat N) = Some r ∧
       (r = (-1)%Z ↔ ∀ d, S d < N → chain !! d ≠ chain !! S d) ∧
       (r ≠ (-1)%Z →
        ∃ d, r = Z.of_nat d ∧ S d < N ∧ chain !! d = chain !! S d ∧
             ∀ d', d < d' → S d' < N → chain !! d' ≠ chain !! S d').
Proof.
  intros Hwf HN H1. eexists. split.
  { by apply validate_non_consecutive_elements_scan. }
  assert (∀ d, S d < N →
               adjacent_duplicate chain d = true ↔ chain !! d = chain !! S d)
    as Hdup.
  { intros d Hd. unfold adjacent_duplicate.
    destruct (chain_wf_lookup _ _ _ d Hwf) as (p & -> & _); [lia|].
    destruct (chain_wf_lookup _ _ _ (S d) Hwf) as (q & -> & _); [lia|].
    rewrite Nat.eqb_eq. split; [by intros ->|by intros [= ->]]. }
  split.
  - rewrite scan_down_none. split; intros Hall d Hd.
    + rewrite <-Hdup by done. rewrite Hall by lia. done.
    + apply not_true_is_false. rewrite Hdup by lia. apply Hall. lia.
  - intros Hne.
    destruct (scan_down_range (adjacent_duplicate chain) (N - 1))
      as [?|Hrange]; [done|].
    set (d := Z.to_nat (scan_down (adjacent_duplicate chain) (N - 1))).
    destruct (scan_down_some (adjacent_duplicate chain) (N - 1) d)
      as [(Hlt & Hbad & Hafter) _]; [lia|].
    exists d. split; [lia|]. split; [lia|]. split.
    + apply Hdup; [lia|done].
    + intros d' Hd' HN'. rewrite <-Hdup by done.
      rewrite Hafter by lia. done.
Qed.

(** C4 as stated fails: the chain [RGB->YUV] on the route from RGB to I420
    has one position, and both [validate_chain_caps] and the pipeline answer
    1, the boundary after the last position. *)
Lemma validate_chain_depth_after_last_position :
  validate_chain_caps (example_element rgb_yuv_i420) [RGB] [I420] [1] 1%Z
  = Some 1%Z ∧
  gst_auto_convert2_validate_chain (example_element rgb_yuv_i420) [RGB]
    [I420] [1] 1%Z = Some 1%Z ∧
  ¬ (1 = -1 ∨ 0 ≤ 1 ≤ 1 - 1)%Z.
Proof. split; [done|]. split; [done|]. lia. Qed.

(** C4, amended. [validate_chain_caps] returns [-1] or a boundary in
    [0..N]; on a chain of at least one position
    [validate_non_consecutive_elements] returns [-1] or a position in
    [0..N-2], and the pipeline [-1] or a number in [0..N]. The pipeline runs
    [validate_chain_caps] first: when that does not return [-1] its result
    is the pipeline's, whatever the second validator would do; otherwise the
    result of [validate_non_consecutive_elements] is. The pipeline returns
    [-1] only if both validators do. *)
Theorem validate_chain_pipeline `{GstCapsApi}
    (autoconvert2 : GstAutoConvert2) (source_caps destination_caps : GstCaps)
    (chain : list nat) (N : nat) :
  chain_wf (length (factory_index (priv autoconvert2))) N chain →
  (Z.of_nat N ≤ G_MAXINT)%Z →
  let caps :=
    validate_chain_caps autoconvert2 source_caps destination_caps chain
      (Z.of_nat N) in
  let dups :=
    validate_non_consecutive_elements autoconvert2 source_caps
      destination_caps chain (Z.of_nat N) in
  let pipeline :=
    gst_auto_convert2_validate_chain autoconvert2 source_caps
      destination_caps chain (Z.of_nat N) in
  (∃ r, caps = Some r ∧ (r = -1 ∨ 0 ≤ r ≤ Z.of_nat N)%Z) ∧
  (1 ≤ N → ∃ r, dups = Some r ∧ (r = -1 ∨ 0 ≤ r ≤ Z.of_nat N - 2)%Z) ∧
  (1 ≤ N → ∃ r, pipeline = Some r ∧ (r = -1 ∨ 0 ≤ r ≤ Z.of_nat N)%Z) ∧
  (∀ r, caps = Some r → r ≠ (-1)%Z → pipeline = Some r) ∧
  (caps = Some (-1)%Z → ∀ r, dups = Some r → pipeline = Some r) ∧
  (pipeline = Some (-1)%Z ↔ caps = Some (-1)%Z ∧ dups = Some (-1)%Z).
Proof.
  intros Hwf HN caps dups pipeline.
  assert (pipeline
          = (depth ← caps;
             if negb (depth =? -1)%Z then Some depth
             else depth ← dups;
                  if negb (depth =? -1)%Z then Some depth else Some (-1)%Z))
    as Hpipe by apply validate_chain_first_invalid.
  assert (∃ r, caps = Some r ∧ (r = -1 ∨ 0 ≤ r ≤ Z.of_nat N)%Z)
    as (c & Hc & Hcrange).
  { eexists. split; [by apply validate_chain_caps_scan|].
    match goal with |- context [scan_down ?bad ?n] =>
      destruct (scan_down_range bad n) end; lia. }
  assert (1 ≤ N → ∃ r, dups = Some r ∧ (r = -1 ∨ 0 ≤ r ≤ Z.of_nat N - 2)%Z)
    as Hdups.
  { intros H1. eexists.
    split; [by apply validate_non_consecutive_elements_scan|].
    destruct (scan_down_range (adjacent_duplicate chain) (N - 1)); lia. }
  rewrite Hc in Hpipe. cbn [mbind option_bind] in Hpipe.
  split; [by exists c|]. split; [done|]. split; [|split; [|split]].
  - intros H1. destruct (Hdups H1) as (d & Hd & Hdrange).
    rewrite Hd in Hpipe. cbn [mbind option_bind] in Hpipe. rewrite Hpipe.
    destruct (Z.eqb_spec c (-1)); cbn [negb]; [|eexists; split; [done|lia]].
    destruct (Z.eqb_spec d (-1)); cbn [negb]; eexists; (split; [done|lia]).
  - intros r Hr Hne. rewrite Hc in Hr. injection Hr as ->. rewrite Hpipe.
    by destruct (Z.eqb_spec r (-1)).
  - intros Hr r Hd. rewrite Hc in Hr. injection Hr as ->.
    rewrite Hd in Hpipe. cbn [mbind option_bind] in Hpipe. rewrite Hpipe.
    rewrite Z.eqb_refl. cbn [negb].
    destruct (Z.eqb_spec r (-1)); cbn [negb]; congruence.
  - rewrite Hpipe, Hc.
    destruct (Z.eqb_spec c (-1)) as [Heq|Hne]; cbn [negb].
    + rewrite Heq. destruct dups as [d|]; cbn [mbind option_bind].
      * destruct (Z.eqb_spec d (-1)) as [Hd|Hd]; cbn [negb].
        -- by rewrite Hd.
        -- split; [congruence|]. intros [_ [= ?]]. done.
      * split; [done|]. by intros [_ ?].
    + split; [congruence|]. intros [[= ?] _]. done.
Qed.

Lemma validate_chain_pipeline_witness :
  chain_wf 2 2 [1; 1] ∧ (Z.of_nat 2 ≤ G_MAXINT)%Z ∧
  gst_auto_convert2_validate_chain (example_element rgb_yuv_i420) [RGB]
    [YUV] [1; 1] (Z.of_nat 2) = Some 1%Z.
Proof.
  assert (chain_wf 2 2 [1; 1]) as Hwf.
  { concrete_chain_wf. }
  assert (Z.of_nat 2 ≤ G_MAXINT)%Z as HN by (by vm_compute).
  split; [exact Hwf|]. split; [exact HN|].
  destruct (validate_chain_pipeline (H:=FormatCaps)
              (example_element rgb_yuv_i420) [RGB] [YUV] [1; 1] 2 Hwf HN)
    as (_ & _ & _ & Hfirst & _).
  apply (Hfirst 1%Z); [reflexivity|discriminate].
Defined.

(** * Properties of the generator *)

Lemma odometer_None_iff K digits :
  Forall (λ p, p < K) digits →
  odometer K digits = None ↔ ∀ i, i < length digits →
                                  digits !! i = Some (K - 1).
Proof.
  induction 1 as [|c digits Hc _ IH]; simpl.
  - split; [intros _ i Hi; lia|done].
  - destruct (Nat.ltb_spec (S c) K).
    + split; [done|]. intros Hall. specialize (Hall 0 ltac:(lia)).
      simpl in Hall. injection Hall as ->. lia.
    + destruct (odometer K digits) as [hi|]; simpl.
      * split; [done|]. intros Hall.
        destruct IH as [_ IH]. discriminate IH.
        intros i Hi. apply (Hall (S i)). lia.
      * split; [|done]. intros _ [|i] Hi; simpl.
        -- f_equal. lia.
        -- apply IH; [done|lia].
Qed.

(** A successful odometer step: the first digit that is not at the last
    entry moves on, the digits before it go back to the first entry, the
    digits after it stay. *)
Lemma odometer_Some_inv K digits digits' :
  Forall (λ p, p < K) digits → odometer K digits = Some digits' →
  ∃ j c, digits !! j = Some c ∧ S c < K ∧
         (∀ i, i < j → digits !! i = Some (K - 1)) ∧
         (∀ i, i < j → digits' !! i = Some 0) ∧
         digits' !! j = Some (S c) ∧
         (∀ i, j < i → digits' !! i = digits !! i).
Proof.
  intros Hall. revert digits'.
  induction Hall as [|c digits Hc _ IH]; intros digits'; [done|]. simpl.
  destruct (Nat.ltb_spec (S c) K).
  - intros [= <-]. exists 0, c. split; [done|]. split; [done|].
    split; [intros; lia|]. split; [intros; lia|]. split; [done|].
    intros [|i] Hi; [lia|done].
  - destruct (odometer K digits) as [hi|]; [|done]. intros [= <-].
    destruct (IH hi eq_refl) as (j & c' & Hj & Hc' & Hlow & Hzero & Hnext & Hup).
    exists (S j), c'. split; [done|]. split; [done|]. split; [|split; [|split]].
    + intros [|i] Hi; simpl; [f_equal; lia|]. apply Hlow. lia.
    + intros [|i] Hi; simpl; [done|]. apply Hzero. lia.
    + done.
    + intros [|i] Hi; [lia|]. simpl. apply Hup. lia.
Qed.

(** C2. On a generator of [N] cursors over [K >= 1] entries and for a depth
    [D < N], [advance_chain_generator] does the odometer step of the design
    ([advance_spec]): it reports that it is done exactly when every cursor
    from [D] on is at the last entry, the carry leaving position [N - 1];
    otherwise some position [j >= D] is the first not at the last entry, and
    then cursor [j] moves to the next entry, every cursor below [j] - those
    from [D] to [j - 1] that wrapped, and all those below [D] - is at the
    first entry, and the cursors above [j] are untouched. *)
Theorem advance_chain_generator_odometer `{GstCapsApi}
    (factory_index : list FactoryListEntry) (gen : ChainGenerator)
    (N D : nat) :
  (Z.of_nat N ≤ G_MAXINT)%Z → gen_length gen = Z.of_nat N →
  chain_wf (length factory_index) N (iterators gen) → D < N →
  let K := length factory_index in
  let cursors := iterators gen in
  advance_chain_generator gen factory_index (Z.of_nat D)
  = Some match advance_spec K D cursors with
         | Some its => (true, set_iterators gen its)
         | None =>
             (false,
              set_iterators gen (take D cursors ++ replicate (N - D) 0))
         end ∧
  (advance_spec K D cursors = None ↔
   ∀ i, D ≤ i < N → cursors !! i = Some (K - 1)) ∧
  (∀ its, advance_spec K D cursors = Some its →
     ∃ j c, D ≤ j < N ∧ cursors !! j = Some c ∧ S c < K ∧
            (∀ i, D ≤ i < j → cursors !! i = Some (K - 1)) ∧
            (∀ i, i < j → its !! i = Some 0) ∧
            its !! j = Some (S c) ∧
            (∀ i, j < i → its !! i = cursors !! i)).
Proof.
  intros HN Hlen Hwf HD K cursors.
  split; [apply advance_chain_generator_spec; (done || lia)|].
  destruct Hwf as [HlenN Hall]. fold cursors in HlenN, Hall.
  assert (Forall (λ p, p < K) (drop D cursors)) as Hdrop
    by by apply Forall_drop.
  unfold advance_spec. split.
  - rewrite fmap_None, (odometer_None_iff _ _ Hdrop), length_drop, HlenN.
    split; intros Hlast i Hi.
    + replace i with (D + (i - D)) by lia. rewrite <-lookup_drop.
      apply Hlast. lia.
    + rewrite lookup_drop. apply Hlast. lia.
  - intros its Hits. apply fmap_Some in Hits as (hi & Hodo & ->).
    destruct (odometer_Some_inv _ _ _ Hdrop Hodo)
      as (j & c & Hj & Hc & Hlow & Hzero & Hnext & Hup).
    rewrite lookup_drop in Hj. pose proof (lookup_lt_Some _ _ _ Hj).
    exists (D + j), c. split; [lia|]. split; [done|]. split; [done|].
    split; [|split; [|split]].
    + intros i Hi. replace i with (D + (i - D)) by lia.
      rewrite <-lookup_drop. apply Hlow. lia.
    + intros i Hi. destruct (decide (i < D)).
      * rewrite lookup_app_l by (rewrite length_replicate; lia).
        apply lookup_replicate_2. lia.
      * rewrite lookup_app_r, length_replicate by (rewrite length_replicate; lia).
        apply Hzero. lia.
    + rewrite lookup_app_r, length_replicate by (rewrite length_replicate; lia).
      by replace (D + j - D) with j by lia.
    + intros i Hi.
      rewrite lookup_app_r, length_replicate by (rewrite length_replicate; lia).
      rewrite Hup by lia. rewrite lookup_drop. f_equal. lia.
Qed.

Lemma advance_chain_generator_odometer_witness :
  let fi := factory_index (priv (example_element rgb_yuv_i420)) in
  let gen := init_chain_generator fi (example_route [RGB] [I420]) 2 in
  (Z.of_nat 2 ≤ G_MAXINT)%Z ∧ gen_length gen = Z.of_nat 2 ∧
  chain_wf (length fi) 2 (iterators gen) ∧ 1 < 2 ∧
  advance_chain_generator gen fi (Z.of_nat 1)
  = Some (true, set_iterators gen [0; 1]).
Proof.
  intros fi gen.
  assert (Z.of_nat 2 ≤ G_MAXINT)%Z as HN by (by vm_compute).
  assert (chain_wf (length fi) 2 (iterators gen)) as Hwf.
  { concrete_chain_wf. }
  assert (1 < 2) as HD by lia.
  split; [exact HN|]. split; [reflexivity|]. split; [exact Hwf|].
  split; [exact HD|].
  exact (proj1 (advance_chain_generator_odometer (H:=FormatCaps) fi gen 2 1
                  HN eq_refl Hwf HD)).
Defined.

(** The chains [advance_chain_generator] walks through from depth 0 are the
    candidates from the current one on, in the order of [all_chains]. *)
Lemma visited_chains_depth_0 `{GstCapsApi} (autoconvert2 : GstAutoConvert2)
    (N fuel : nat) :
  (Z.of_nat N ≤ G_MAXINT)%Z →
  let K := length (factory_index (priv autoconvert2)) in
  ∀ gen, gen_length gen = Z.of_nat N → chain_wf K N (iterators gen) →
         K ^ N - rank K (iterators gen) ≤ fuel →
         visited_chains autoconvert2 0 fuel gen
         = Some (drop (rank K (iterators gen)) (all_chains K N)).
Proof.
  intros HN K. induction fuel as [|fuel IH]; intros gen Hlen Hwf Hfuel.
  { pose proof Hwf as [HlenN Hall]. pose proof (rank_lt K _ Hall).
    rewrite HlenN in *. lia. }
  cbn [visited_chains]. change 0%Z with (Z.of_nat 0).
  rewrite (advance_chain_generator_spec _ gen N 0) by (done || lia).
  cbn [mbind option_bind]. fold K.
  rewrite (drop_S _ _ _ (all_chains_lookup K N _ Hwf)).
  destruct (advance_spec K 0 (iterators gen)) as [cursors'|] eqn:Hadv.
  - destruct (advance_spec_rank K N 0 _ _ Hwf ltac:(lia) Hadv)
      as [Hwf' Hrank'].
    rewrite drop_0, Nat.pow_0_r, Nat.mul_1_l in Hrank'.
    rewrite IH; [|done|done|cbn [set_iterators iterators]; lia].
    cbn [set_iterators iterators fmap option_fmap option_map].
    by rewrite Hrank'.
  - do 2 f_equal. symmetry. apply drop_ge. rewrite all_chains_length.
    unfold advance_spec in Hadv. rewrite drop_0 in Hadv.
    apply fmap_None in Hadv. destruct Hwf as [HlenN Hall].
    rewrite (odometer_None_rank K _ Hall Hadv), HlenN. done.
Qed.

(** C8 as stated fails: over two entries and with two positions, advancing
    from depth [N - 1 = 1] visits two of the four chains and then reports
    that it is done. *)
Lemma advance_from_last_depth_misses_chains :
  visited_chains (example_element rgb_yuv_i420) (2 - 1) 5
    (init_chain_generator
       (factory_index (priv (example_element rgb_yuv_i420)))
       (example_route [RGB] [I420]) 2)
  = Some [[0; 0]; [0; 1]] ∧
  chain_wf 2 2 [1; 0] ∧ [1; 0] ∉ [[0; 0]; [0; 1]].
Proof.
  split; [done|]. split.
  - split; [done|]. repeat constructor.
  - intros Hin. repeat (apply elem_of_cons in Hin as [Hin|Hin]; [done|]).
    by apply elem_of_nil in Hin.
Qed.

(** C8, amended. From the initial state over a catalog of [K >= 1]
    entries, calling [advance_chain_generator] with depth 0 until it reports
    that it is done visits [K ^ N] chains, no chain twice, and every
    sequence of [N] catalog entries among them. *)
Theorem advance_from_depth_0_visits_all `{GstCapsApi}
    (autoconvert2 : GstAutoConvert2) (route : GstAutoConvert2TransformRoute)
    (N fuel : nat) :
  let index := factory_index (priv autoconvert2) in
  let K := length index in
  1 ≤ K → (Z.of_nat N ≤ G_MAXINT)%Z → K ^ N ≤ fuel →
  ∃ visited,
    visited_chains autoconvert2 0 fuel
      (init_chain_generator index route (Z.of_nat N))
    = Some visited ∧
    length visited = K ^ N ∧ NoDup visited ∧
    ∀ chain, chain ∈ visited ↔ chain_wf K N chain.
Proof.
  intros index K HK HN Hfuel. exists (all_chains K N).
  split; [|split; [|split]].
  - rewrite (visited_chains_depth_0 autoconvert2 N fuel HN).
    + cbn [init_chain_generator iterators]. rewrite Nat2Z.id.
      fold index K. by rewrite rank_replicate, drop_0.
    + done.
    + cbn [init_chain_generator iterators]. rewrite Nat2Z.id.
      by apply chain_wf_replicate.
    + fold index K. lia.
  - apply all_chains_length.
  - apply all_chains_NoDup.
  - apply all_chains_elem_of.
Qed.

Lemma advance_from_depth_0_visits_all_witness :
  1 ≤ 2 ∧ (Z.of_nat 2 ≤ G_MAXINT)%Z ∧ 2 ^ 2 ≤ 4 ∧
  ∃ visited,
    visited_chains (example_element rgb_yuv_i420) 0 4
      (init_chain_generator
         (factory_index (priv (example_element rgb_yuv_i420)))
         (example_route [RGB] [I420]) (Z.of_nat 2))
    = Some visited ∧
    length visited = 2 ^ 2 ∧ NoDup visited ∧
    ∀ chain, chain ∈ visited ↔ chain_wf 2 2 chain.
Proof.
  assert (1 ≤ 2) as HK by lia.
  assert (Z.of_nat 2 ≤ G_MAXINT)%Z as HN by (by vm_compute).
  assert (2 ^ 2 ≤ 4) as Hfuel by (simpl; lia).
  split; [exact HK|]. split; [exact HN|]. split; [exact Hfuel|].
  exact (advance_from_depth_0_visits_all (H:=FormatCaps)
           (example_element rgb_yuv_i420) (example_route [RGB] [I420]) 2 4
           HK HN Hfuel).
Defined.

(** * Properties of the search *)

Lemma init_chain_generator_wf `{GstCapsApi}
    (index : list FactoryListEntry) (route : GstAutoConvert2TransformRoute)
    (N : nat) :
  1 ≤ length index →
  generator_wf (length index) N route
    (init_chain_generator index route (Z.of_nat N)).
Proof.
  intros HK. repeat split; cbn [init_chain_generator iterators]; try done.
  - by rewrite Nat2Z.id, length_replicate.
  - rewrite Nat2Z.id. apply Forall_replicate. lia.
Qed.



(** C1. With the default validators, on a catalog of [K >= 1] entries, for
    any route and any length [N]: the candidates of the naive search are
    the [K ^ N] chains in the order in which the generator walks through
    them when nothing is pruned (advancing from depth 0); the first call of
    [generate_next_chain] returns the chain that the naive search finds -
    the first candidate that the pipeline accepts - and reports that it is
    done exactly when the pipeline accepts no candidate. Every candidate
    that a pruning advance jumps over (after the pipeline reported [depth]
    for the current one) is one the pipeline rejects. *)
Theorem generate_next_chain_first_valid `{GstCapsApi}
    (klass : GstAutoConvert2Class) (autoconvert2 : GstAutoConvert2)
    (route : GstAutoConvert2TransformRoute) (N fuel : nat) :
  validate_chain klass = gst_auto_convert2_validate_chain →
  (Z.of_nat N ≤ G_MAXINT)%Z →
  let index := factory_index (priv autoconvert2) in
  let K := length index in
  let candidates := all_chains K N in
  let accepted := chain_accepted klass autoconvert2 route N in
  1 ≤ K → K ^ N < fuel →
  visited_chains autoconvert2 0 fuel
    (init_chain_generator index route (Z.of_nat N)) = Some candidates ∧
  (∃ found gen',
     generate_next_chain klass autoconvert2 fuel
       (init_chain_generator index route (Z.of_nat N)) = Some (found, gen') ∧
     match naive_search klass autoconvert2 route N with
     | Some chain => found = true ∧ iterators gen' = chain
     | None => found = false
     end ∧
     (found = false ↔ ∀ chain, chain_wf K N chain → accepted chain = false)) ∧
  (∀ gen depth gen',
     generator_wf K N route gen →
     validate_chain klass autoconvert2 (gen_sink_caps gen) (gen_src_caps gen)
       (iterators gen) (gen_length gen) = Some depth →
     (0 ≤ depth)%Z →
     advance_chain_generator gen index
       (guint_of (if (0 <? depth)%Z then int_of (depth - 1) else depth))
     = Some (true, gen') →
     ∀ i j k skipped,
       candidates !! i = Some (iterators gen) →
       candidates !! k = Some (iterators gen') →
       i < j < k → candidates !! j = Some skipped →
       accepted skipped = false).
Proof.
  intros Hklass HN index K candidates accepted HK Hfuel.
  split; [|split].
  - pose proof (init_chain_generator_wf index route N HK)
      as (_ & _ & Hlen & Hwf).
    rewrite (visited_chains_depth_0 autoconvert2 N fuel HN _ Hlen Hwf).
    + cbn [init_chain_generator iterators]. rewrite Nat2Z.id.
      fold index K. by rewrite rank_replicate, drop_0.
    + fold index K. lia.
  - pose proof (init_chain_generator_wf index route N HK) as Hgen.
    destruct (generate_next_chain_search klass autoconvert2 route N Hklass
                HN _ fuel ltac:(done) Hgen)
      as (found & gen' & Hrun & Hfind).
    { cbn [init_chain_generator gen_init iterators]. fold index K. lia. }
    exists found, gen'. split; [done|].
    cbn [init_chain_generator gen_init iterators] in Hfind.
    rewrite Nat2Z.id, rank_replicate, drop_0 in Hfind.
    fold index K candidates accepted in Hfind.
    unfold naive_search. fold index K candidates accepted.
    split; [done|].
    destruct (find accepted candidates) as [chain|] eqn:Hnaive.
    + destruct Hfind as [-> _]. split; [done|]. intros Hnone.
      apply find_some in Hnaive as [Hin Hacc].
      apply list_elem_of_In, all_chains_elem_of in Hin.
      rewrite Hnone in Hacc; done.
    + split; [|done]. intros _ chain Hwf.
      apply (find_None_lookup accepted candidates (rank K chain)); [done|].
      by apply all_chains_lookup.
  - intros gen depth gen' (Hsink & Hsrc & Hlen & Hwf) Hdepth Hpos Hadv
      i j k skipped Hi Hk Hj Hskipped.
    rewrite Hklass, Hsink, Hsrc, Hlen in Hdepth.
    destruct (validate_chain_depth autoconvert2 (route_sink_caps route)
                (route_src_caps route) N HN _ Hwf)
      as (r & Hr & [[Hneg _]|(p & -> & Hp & Hdefect)]);
      rewrite Hr in Hdepth; injection Hdepth as <-; [lia|].
    rewrite (next_depth_skip N HN p Hp) in Hadv.
    assert (skip_depth p ≤ N) as HD by (unfold skip_depth; lia).
    rewrite guint_of_nat in Hadv by lia.
    rewrite (advance_chain_generator_spec index gen N (skip_depth p)) in Hadv
      by done.
    fold K in Hadv.
    destruct (advance_spec K (skip_depth p) (iterators gen)) as [its|]
      eqn:Hspec; [|done].
    injection Hadv as <-. cbn [set_iterators iterators] in Hk.
    apply all_chains_lookup_inv in Hi as [_ <-].
    apply all_chains_lookup_inv in Hk as [_ <-].
    apply (advance_skips_rejected klass autoconvert2 route N
             (iterators gen) its (skip_depth p) Hwf HD) with (i := j);
      [|done|done|done].
    intros t Hwft Hdrop _.
    apply (chain_defect_rejected klass autoconvert2 route N Hklass HN t p);
      [done|done|].
    rewrite <-Hdefect. apply chain_defect_local; [|done].
    destruct Hwft as [-> _]. by destruct Hwf as [-> _].
Qed.

Lemma generate_next_chain_first_valid_witness :
  let klass := example_class rgb_yuv_i420 in
  let element := example_element rgb_yuv_i420 in
  let route := example_route [RGB] [I420] in
  validate_chain klass = gst_auto_convert2_validate_chain ∧
  (Z.of_nat 2 ≤ G_MAXINT)%Z ∧ 1 ≤ 2 ∧ 2 ^ 2 < 5 ∧
  naive_search klass element route 2 = Some [1; 0] ∧
  ∃ found gen',
    generate_next_chain klass element 5
      (init_chain_generator (factory_index (priv element)) route
         (Z.of_nat 2)) = Some (found, gen') ∧
    match naive_search klass element route 2 with
    | Some chain => found = true ∧ iterators gen' = chain
    | None => found = false
    end ∧
    (found = false ↔
     ∀ chain, chain_wf 2 2 chain →
              chain_accepted klass element route 2 chain = false).
Proof.
  intros klass element route.
  assert (validate_chain klass = gst_auto_convert2_validate_chain) as Hklass
    by reflexivity.
  assert (Z.of_nat 2 ≤ G_MAXINT)%Z as HN by (by vm_compute).
  assert (1 ≤ 2) as HK by lia.
  assert (2 ^ 2 < 5) as Hfuel by (simpl; lia).
  split; [exact Hklass|]. split; [exact HN|]. split; [exact HK|].
  split; [exact Hfuel|]. split; [reflexivity|].
  exact (proj1 (proj2 (generate_next_chain_first_valid (H:=FormatCaps) klass
                         element route 2 5 Hklass HN HK Hfuel))).
Defined.

(** The scenarios of the design document, one search per length. A single
    converter from RGB to YUV bridges that route with one stage and not with
    none. *)
Example scenario_single_converter :
  example_search [example_factory 7 [RGB] [YUV]] [RGB] [YUV] 0 10
  = Some (false, []) ∧
  example_search [example_factory 7 [RGB] [YUV]] [RGB] [YUV] 1 10
  = Some (true, [Some 7]).
Proof. by split. Qed.

(** A converter from RGB to RGB does not bridge RGB to YUV at any length up
    to 3: alone its output does not fit, twice in a row it is rejected. *)
Example scenario_no_bridge :
  (λ length, fst <$> example_search [example_factory 7 [RGB] [RGB]] [RGB]
                       [YUV] length 10) <$> [0; 1; 2; 3]%Z
  = [Some false; Some false; Some false; Some false].
Proof. reflexivity. Qed.

(** RGB to YUV and YUV to I420 bridge RGB to I420 with two stages, in that
    order, and not with fewer. *)
Example scenario_two_stages :
  (λ length, example_search rgb_yuv_i420 [RGB] [I420] length 10)
    <$> [0; 1; 2]%Z
  = [Some (false, []); Some (false, [Some 2]);
     Some (true, [Some 1; Some 2])].
Proof. reflexivity. Qed.

(** With a catalog that is not empty, caps that intersect are bridged by the
    chain of length 0. *)
Example scenario_direct :
  example_search rgb_yuv_i420 [RGB] [RGB] 0 10 = Some (true, []).
Proof. reflexivity. Qed.

(** C7 as stated fails: with an empty catalog and a route whose caps
    intersect, [generate_next_chain] for length 0 reports that it is done
    and does not give out the empty chain. *)
Lemma empty_catalog_length_0_not_found :
  factory_index (priv (example_element [])) = [] ∧
  format_caps_can_intersect [RGB] [RGB] = true ∧
  generate_next_chain (example_class []) (example_element []) 5
    (init_chain_generator [] (example_route [RGB] [RGB]) 0)
  = Some (false, init_chain_generator [] (example_route [RGB] [RGB]) 0).
Proof. done. Qed.

(** C7, amended. With an empty catalog [generate_next_chain] reports that
    it is done for every length, 0 included, whatever the route: it returns
    before it looks at the generator. *)
Theorem generate_next_chain_empty_catalog `{GstCapsApi}
    (klass : GstAutoConvert2Class) (autoconvert2 : GstAutoConvert2)
    (fuel : nat) (gen : ChainGenerator) :
  factory_index (priv autoconvert2) = [] →
  generate_next_chain klass autoconvert2 fuel gen = Some (false, gen).
Proof. intros Hempty. unfold generate_next_chain. by rewrite Hempty. Qed.

Lemma generate_next_chain_empty_catalog_witness :
  factory_index (priv (example_element [])) = [] ∧
  generate_next_chain (example_class []) (example_element []) 0
    (init_chain_generator [] (example_route [RGB] [YUV]) 3)
  = Some (false, init_chain_generator [] (example_route [RGB] [YUV]) 3).
Proof.
  split; [reflexivity|].
  exact (generate_next_chain_empty_catalog (H:=FormatCaps) (example_class [])
           (example_element []) 0
           (init_chain_generator [] (example_route [RGB] [YUV]) 3) eq_refl).
Defined.

(** * Properties of the catalog index *)

Section CatalogFacts.
Context `{GstCapsApi}.
Implicit Types (it : list GstStaticPadTemplate).

Local Abbreviation is_sink := (λ t, direction t = GST_PAD_SINK).
Local Abbreviation not_sink := (λ t, direction t ≠ GST_PAD_SINK).

(** [find_pad_templates] answers TRUE exactly when, the templates already
    selected included, one template is a sink template and one is not. *)
Lemma find_pad_templates_loop_true it sink src :
  (find_pad_templates_loop it sink src).1.1 = true ↔
  length (filter is_sink it) + (if sink is Some _ then 1 else 0) = 1 ∧
  length (filter not_sink it) + (if src is Some _ then 1 else 0) = 1.
Proof.
  revert sink src. induction it as [|t it IH]; intros sink src.
  - destruct sink, src; simpl; split; done || lia.
  - cbn [find_pad_templates_loop]. destruct (decide (direction t = GST_PAD_SINK)).
    + rewrite filter_cons_True, filter_cons_False by (done || by intros ?).
      destruct sink; simpl.
      * split; [done|lia].
      * rewrite IH. simpl. lia.
    + rewrite filter_cons_False, filter_cons_True by done.
      destruct src; simpl.
      * split; [done|lia].
      * rewrite IH. simpl. lia.
Qed.

Lemma find_pad_templates_loop_selected it sink src sink' src' :
  find_pad_templates_loop it sink src = (true, sink', src') →
  is_Some sink' ∧ is_Some src'.
Proof.
  revert sink src. induction it as [|t it IH]; intros sink src.
  - simpl. intros [= Hb <- <-]. apply andb_true_iff in Hb as [Hs Ht].
    by apply bool_decide_eq_true in Hs, Ht.
  - cbn [find_pad_templates_loop].
    destruct (decide (direction t = GST_PAD_SINK)).
    + destruct sink; [done|]. apply IH.
    + destruct src; [done|]. apply IH.
Qed.


Lemma factory_qualifies_count (factory : GstElementFactory) :
  factory_qualifies factory = true ↔
  count_templates GST_PAD_SINK factory = 1 ∧
  length (filter not_sink (static_pad_templates factory)) = 1.
Proof.
  unfold factory_qualifies, find_pad_templates, count_templates.
  rewrite find_pad_templates_loop_true. simpl. lia.
Qed.

(** The first loop of [index_factories]: the factories of the new entries
    are the qualifying ones, last listed first. *)
Lemma index_factories_prepend_reverse (factories : list GstElementFactory)
    (index : list FactoryListEntry) :
  factory <$> index_factories_prepend factories index
  = reverse (filter (λ f, factory_qualifies f = true) factories)
    ++ (factory <$> index).
Proof.
  revert index. induction factories as [|f factories IH]; intros index;
    [done|].
  cbn [index_factories_prepend]. unfold factory_qualifies at 1.
  destruct (find_pad_templates f) as [[b sink] src] eqn:Hfind.
  destruct b.
  - destruct (find_pad_templates_loop_selected _ _ _ _ _ Hfind)
      as [[s ->] [t ->]].
    rewrite filter_cons_True by (unfold factory_qualifies; by rewrite Hfind).
    rewrite IH, reverse_cons, <-app_assoc. done.
  - rewrite filter_cons_False
      by (unfold factory_qualifies; by rewrite Hfind).
    destruct sink, src; apply IH.
Qed.

Lemma index_factories_factories (klass : GstAutoConvert2Class)
    (get : GstAutoConvert2 → list GstElementFactory) :
  get_factories klass = Some get →
  factory <$> factory_index
                (priv (index_factories klass gst_auto_convert2_init).2)
  = reverse (filter (λ f, factory_qualifies f = true)
               (get gst_auto_convert2_init)).
Proof.
  intros Hget. unfold index_factories. rewrite Hget.
  destruct (index_factories_merge _ _ _) as [sink_caps src_caps].
  cbn [snd priv factory_index].
  rewrite index_factories_prepend_reverse. simpl. by rewrite app_nil_r.
Qed.

End CatalogFacts.



(** C10. [index_factories] prepends: the factories of the index, from its
    head on, are the qualifying factories in the reverse of the order in
    which [get_factories] lists them; and the head of that index is where
    [init_chain_generator] puts every cursor. *)
Theorem index_factories_reverse_order `{GstCapsApi}
    (klass : GstAutoConvert2Class)
    (get : GstAutoConvert2 → list GstElementFactory)
    (route : GstAutoConvert2TransformRoute) (N : nat) :
  get_factories klass = Some get →
  let index :=
    factory_index (priv (index_factories klass gst_auto_convert2_init).2) in
  factory <$> index
  = reverse (filter (λ f, factory_qualifies f = true)
               (get gst_auto_convert2_init)) ∧
  iterators (init_chain_generator index route (Z.of_nat N)) = replicate N 0 ∧
  (∀ f, last (filter (λ f, factory_qualifies f = true)
                (get gst_auto_convert2_init)) = Some f →
        factory <$> gslist_data index 0 = Some f).
Proof.
  intros Hget index.
  pose proof (index_factories_factories klass get Hget) as Hrev.
  fold index in Hrev. split; [done|]. split.
  - cbn [init_chain_generator iterators]. by rewrite Nat2Z.id.
  - intros f Hlast. unfold gslist_data.
    rewrite <-list_lookup_fmap, Hrev, <-head_lookup, head_reverse. done.
Qed.

Lemma index_factories_reverse_order_witness :
  let klass := example_class rgb_yuv_i420 in
  get_factories klass = Some (λ _, rgb_yuv_i420) ∧
  factory <$> factory_index
                (priv (index_factories klass gst_auto_convert2_init).2)
  = [example_factory 2 [YUV] [I420]; example_factory 1 [RGB] [YUV]].
Proof.
  intros klass.
  assert (get_factories klass = Some (λ _, rgb_yuv_i420)) as Hget
    by reflexivity.
  split; [exact Hget|].
  exact (eq_trans
           (proj1 (index_factories_reverse_order (H:=FormatCaps) klass
                     (λ _, rgb_yuv_i420) (example_route [RGB] [I420]) 2
                     Hget))
           eq_refl).
Defined.

(** * Further properties of the validators *)

Lemma validate_non_consecutive_elements_last_duplicate_witness :
  chain_wf 2 3 [1; 1; 0] ∧ (Z.of_nat 3 ≤ G_MAXINT)%Z ∧ 1 ≤ 3 ∧
  ∃ r, validate_non_consecutive_elements (example_element rgb_yuv_i420)
         [RGB] [I420] [1; 1; 0] (Z.of_nat 3) = Some r ∧
       (r = (-1)%Z ↔
        ∀ d, S d < 3 → [1; 1; 0] !! d ≠ [1; 1; 0] !! S d) ∧
       (r ≠ (-1)%Z →
        ∃ d, r = Z.of_nat d ∧ S d < 3 ∧
             [1; 1; 0] !! d = [1; 1; 0] !! S d ∧
             ∀ d', d < d' → S d' < 3 →
                   [1; 1; 0] !! d' ≠ [1; 1; 0] !! S d').
Proof.
  assert (chain_wf 2 3 [1; 1; 0]) as Hwf by concrete_chain_wf.
  assert (Z.of_nat 3 ≤ G_MAXINT)%Z as HN by (by vm_compute).
  assert (1 ≤ 3) as H1 by lia.
  split; [exact Hwf|]. split; [exact HN|]. split; [exact H1|].
  exact (validate_non_consecutive_elements_last_duplicate (H:=FormatCaps)
           (example_element rgb_yuv_i420) [RGB] [I420] [1; 1; 0] 3 Hwf HN H1).
Defined.

(** X2. The pipeline returns a negative number exactly for the chains
    whose boundaries all connect and that repeat no entry in adjacent
    positions, the empty chain included. A boundary that does not connect
    takes precedence: the result is then the largest such boundary, also
    when the chain repeats entries further towards its end. *)
Theorem validate_chain_negative_iff_valid `{GstCapsApi}
    (autoconvert2 : GstAutoConvert2) (source_caps destination_caps : GstCaps)
    (chain : list nat) (N : nat) :
  chain_wf (length (factory_index (priv autoconvert2))) N chain →
  (Z.of_nat N ≤ G_MAXINT)%Z →
  let intersects :=
    boundary_intersects (factory_index (priv autoconvert2)) source_caps
      destination_caps chain in
  ∃ r, gst_auto_convert2_validate_chain autoconvert2 source_caps
         destination_caps chain (Z.of_nat N) = Some r ∧
       ((r < 0)%Z ↔
        (∀ b, b ≤ N → intersects b = true) ∧
        (∀ d, adjacent_duplicate chain d = false)) ∧
       (∀ b, b ≤ N → intersects b = false →
             (∀ b', b < b' ≤ N → intersects b' = true) → r = Z.of_nat b).
Proof.
  intros Hwf HN intersects.
  destruct (validate_chain_depth autoconvert2 source_caps destination_caps N
              HN chain Hwf) as (r & Hr & Hcases).
  exists r. split; [done|]. split.
  - destruct Hcases as [[Hneg Hnone]|(p & -> & Hp & Hdefect)].
    + split; [|done]. intros _. split.
      * intros b Hb. specialize (Hnone b Hb).
        apply orb_false_iff in Hnone as [Hb' _].
        by apply negb_false_iff in Hb'.
      * intros d. destruct (decide (d ≤ N)) as [Hd|Hd].
        -- specialize (Hnone d Hd). by apply orb_false_iff in Hnone as [_ ?].
        -- destruct Hwf as [Hlen _]. apply adjacent_duplicate_end. lia.
    + split; [lia|]. intros [Hall Hnodup]. exfalso.
      unfold chain_defect in Hdefect. fold intersects in Hdefect.
      rewrite (Hall p Hp), Hnodup in Hdefect. done.
  - intros b Hb Hfails Hafter.
    rewrite validate_chain_first_invalid in Hr.
    rewrite validate_chain_caps_scan in Hr by done.
    cbn [mbind option_bind] in Hr.
    assert (scan_down
              (λ i, negb (boundary_intersects
                            (factory_index (priv autoconvert2)) source_caps
                            destination_caps chain i)) (S N) = Z.of_nat b)
      as Hscan.
    { apply scan_down_some. split; [lia|]. split.
      - fold intersects. by rewrite Hfails.
      - intros i Hi. fold intersects. rewrite Hafter by lia. done. }
    rewrite Hscan, (negb_eqb_minus_one N) in Hr by lia.
    by injection Hr as <-.
Qed.

Lemma validate_chain_negative_iff_valid_witness :
  chain_wf 2 2 [1; 0] ∧ (Z.of_nat 2 ≤ G_MAXINT)%Z ∧
  ∃ r, gst_auto_convert2_validate_chain (example_element rgb_yuv_i420)
         [RGB] [I420] [1; 0] (Z.of_nat 2) = Some r ∧
       ((r < 0)%Z ↔
        (∀ b, b ≤ 2 →
              boundary_intersects
                (factory_index (priv (example_element rgb_yuv_i420)))
                [RGB] [I420] [1; 0] b = true) ∧
        (∀ d, adjacent_duplicate [1; 0] d = false)) ∧
       (∀ b, b ≤ 2 →
             boundary_intersects
               (factory_index (priv (example_element rgb_yuv_i420)))
               [RGB] [I420] [1; 0] b = false →
             (∀ b', b < b' ≤ 2 →
                    boundary_intersects
                      (factory_index (priv (example_element rgb_yuv_i420)))
                      [RGB] [I420] [1; 0] b' = true) →
             r = Z.of_nat b).
Proof.
  assert (chain_wf 2 2 [1; 0]) as Hwf by concrete_chain_wf.
  assert (Z.of_nat 2 ≤ G_MAXINT)%Z as HN by (by vm_compute).
  split; [exact Hwf|]. split; [exact HN|].
  exact (validate_chain_negative_iff_valid (H:=FormatCaps)
           (example_element rgb_yuv_i420) [RGB] [I420] [1; 0] 2 Hwf HN).
Defined.

(** X3. What the pipeline reports is safe to prune on: when it rejects a
    chain with depth [r], it rejects every chain of the same length that has
    the same cursors from position [r - 1] on ([0] for [r = 0]), whatever
    the cursors below. *)
Theorem validate_chain_rejection_local `{GstCapsApi}
    (autoconvert2 : GstAutoConvert2) (source_caps destination_caps : GstCaps)
    (chain chain' : list nat) (N : nat) (r : Z) :
  let K := length (factory_index (priv autoconvert2)) in
  chain_wf K N chain → chain_wf K N chain' → (Z.of_nat N ≤ G_MAXINT)%Z →
  gst_auto_convert2_validate_chain autoconvert2 source_caps destination_caps
    chain (Z.of_nat N) = Some r →
  (0 ≤ r)%Z →
  drop (skip_depth (Z.to_nat r)) chain'
  = drop (skip_depth (Z.to_nat r)) chain →
  ∃ r', gst_auto_convert2_validate_chain autoconvert2 source_caps
          destination_caps chain' (Z.of_nat N) = Some r' ∧ (0 ≤ r')%Z.
Proof.
  intros K Hwf Hwf' HN Hr Hpos Hdrop.
  destruct (validate_chain_depth autoconvert2 source_caps destination_caps N
              HN chain Hwf)
    as (r0 & Hr0 & [[Hneg _]|(p & -> & Hp & Hdefect)]);
    rewrite Hr in Hr0; injection Hr0 as ->; [lia|].
  rewrite Nat2Z.id in Hdrop.
  assert (chain_defect (factory_index (priv autoconvert2)) source_caps
            destination_caps chain' p = true) as Hdefect'.
  { rewrite <-Hdefect. apply chain_defect_local; [|done].
    destruct Hwf' as [-> _]. by destruct Hwf as [-> _]. }
  destruct (validate_chain_depth autoconvert2 source_caps destination_caps N
              HN chain' Hwf')
    as (r' & Hr' & [[_ Hnone]|(p' & -> & _ & _)]).
  - rewrite Hnone in Hdefect'; done.
  - exists (Z.of_nat p'). split; [done|lia].
Qed.

Lemma validate_chain_rejection_local_witness :
  chain_wf 2 3 [0; 1; 1] ∧ chain_wf 2 3 [1; 1; 1] ∧
  (Z.of_nat 3 ≤ G_MAXINT)%Z ∧
  ∃ r', gst_auto_convert2_validate_chain (example_element rgb_yuv_i420)
          [RGB] [YUV] [1; 1; 1] (Z.of_nat 3) = Some r' ∧ (0 ≤ r')%Z.
Proof.
  assert (chain_wf 2 3 [0; 1; 1]) as Hwf by concrete_chain_wf.
  assert (chain_wf 2 3 [1; 1; 1]) as Hwf' by concrete_chain_wf.
  assert (Z.of_nat 3 ≤ G_MAXINT)%Z as HN by (by vm_compute).
  split; [exact Hwf|]. split; [exact Hwf'|]. split; [exact HN|].
  apply (validate_chain_rejection_local (H:=FormatCaps)
           (example_element rgb_yuv_i420) [RGB] [YUV] [0; 1; 1] [1; 1; 1] 3
           2%Z Hwf Hwf' HN); [reflexivity|lia|reflexivity].
Defined.

(** * Further properties of the catalog index *)

Section CatalogEntries.
Context `{GstCapsApi}.

(** Where the out-parameters of [find_pad_templates] come from: a template
    selected by the loop is a template of the list, of the direction it is
    selected for. *)
Lemma find_pad_templates_loop_origin (it : list GstStaticPadTemplate)
    sink src b sink' src' :
  find_pad_templates_loop it sink src = (b, sink', src') →
  (∀ s, sink' = Some s →
        sink = Some s ∨ (s ∈ it ∧ direction s = GST_PAD_SINK)) ∧
  (∀ t, src' = Some t →
        src = Some t ∨ (t ∈ it ∧ direction t ≠ GST_PAD_SINK)).
Proof.
  revert sink src. induction it as [|x it IH]; intros sink src.
  - simpl. intros [= _ <- <-]. split; intros; by left.
  - cbn [find_pad_templates_loop].
    destruct (decide (direction x = GST_PAD_SINK)) as [Hx|Hx].
    + destruct sink as [s0|].
      * intros [= _ <- <-]. split; intros; by left.
      * intros Hloop. destruct (IH _ _ Hloop) as [Hsink Hsrc]. split.
        -- intros s Hs. right. destruct (Hsink s Hs) as [[= <-]|[? ?]].
           ++ split; [by left|done].
           ++ split; [by right|done].
        -- intros t Ht. destruct (Hsrc t Ht) as [?|[? ?]]; [by left|].
           right. split; [by right|done].
    + destruct src as [t0|].
      * intros [= _ <- <-]. split; intros; by left.
      * intros Hloop. destruct (IH _ _ Hloop) as [Hsink Hsrc]. split.
        -- intros s Hs. destruct (Hsink s Hs) as [?|[? ?]]; [by left|].
           right. split; [by right|done].
        -- intros t Ht. right. destruct (Hsrc t Ht) as [[= <-]|[? ?]].
           ++ split; [by left|done].
           ++ split; [by right|done].
Qed.

Lemma index_factories_prepend_entries (listed it : list GstElementFactory)
    (index : list FactoryListEntry) :
  (∀ f, f ∈ it → f ∈ listed) →
  Forall (entry_of_listed listed) index →
  Forall (entry_of_listed listed) (index_factories_prepend it index).
Proof.
  revert index. induction it as [|f it IH]; intros index Hit Hindex; [done|].
  cbn [index_factories_prepend].
  assert (∀ f', f' ∈ it → f' ∈ listed) as Hit'
    by (intros f' Hf'; apply Hit; by right).
  destruct (find_pad_templates f) as [[b sink] src] eqn:Hfind.
  destruct b, sink as [s|], src as [t|]; try by apply IH.
  apply IH; [done|]. apply Forall_cons. split; [|done].
  destruct (find_pad_templates_loop_origin _ _ _ _ _ _ Hfind) as [Hs Ht].
  destruct (Hs s eq_refl) as [?|[Hsin Hsdir]]; [done|].
  destruct (Ht t eq_refl) as [?|[Htin Htdir]]; [done|].
  repeat split; try done. apply Hit. by left.
Qed.

(** The union of the sink caps and of the source caps that the second loop
    of [index_factories] accumulates. *)
Lemma index_factories_merge_intersect (index : list FactoryListEntry)
    (sink_caps src_caps c : GstCaps) :
  caps_merge_is_union →
  gst_caps_can_intersect c (index_factories_merge index sink_caps src_caps).1
  = gst_caps_can_intersect c sink_caps
    || existsb (λ e, gst_caps_can_intersect c (entry_sink_caps e)) index ∧
  gst_caps_can_intersect c (index_factories_merge index sink_caps src_caps).2
  = gst_caps_can_intersect c src_caps
    || existsb (λ e, gst_caps_can_intersect c (entry_src_caps e)) index.
Proof.
  intros [_ Hunion]. revert sink_caps src_caps.
  induction index as [|e index IH]; intros sink_caps src_caps.
  - simpl. by rewrite !orb_false_r.
  - cbn [index_factories_merge existsb].
    destruct (IH (gst_caps_merge sink_caps (entry_sink_caps e))
                (gst_caps_merge src_caps (entry_src_caps e))) as [-> ->].
    by rewrite !Hunion, !orb_assoc.
Qed.

End CatalogEntries.

(** X4. Every entry of the index that [index_factories] builds belongs to
    a factory that [get_factories] lists; its sink pad template is a static
    pad template of that factory with direction [GST_PAD_SINK], its source
    pad template one with another direction, and its two caps are the
    static caps of these two templates. *)
Theorem index_factories_entries `{GstCapsApi}
    (klass : GstAutoConvert2Class)
    (get : GstAutoConvert2 → list GstElementFactory)
    (entry : FactoryListEntry) :
  get_factories klass = Some get →
  entry ∈ factory_index
            (priv (index_factories klass gst_auto_convert2_init).2) →
  factory entry ∈ get gst_auto_convert2_init ∧
  sink_pad_template entry ∈ static_pad_templates (factory entry) ∧
  direction (sink_pad_template entry) = GST_PAD_SINK ∧
  src_pad_template entry ∈ static_pad_templates (factory entry) ∧
  direction (src_pad_template entry) ≠ GST_PAD_SINK ∧
  entry_sink_caps entry
  = gst_static_caps_get (static_caps (sink_pad_template entry)) ∧
  entry_src_caps entry
  = gst_static_caps_get (static_caps (src_pad_template entry)).
Proof.
  intros Hget. unfold index_factories. rewrite Hget.
  destruct (index_factories_merge _ _ _) as [sink_caps src_caps].
  cbn [snd priv factory_index]. intros Hentry.
  pose proof (index_factories_prepend_entries (get gst_auto_convert2_init)
                (get gst_auto_convert2_init) [] (λ _ Hf, Hf)
                (Forall_nil_2 _)) as Hall.
  exact (proj1 (Forall_forall _ _) Hall entry Hentry).
Qed.

Lemma index_factories_entries_witness :
  let klass := example_class rgb_yuv_i420 in
  let entry :=
    create_factory_index_entry (example_factory 1 [RGB] [YUV])
      (example_template GST_PAD_SINK [RGB])
      (example_template GST_PAD_SRC [YUV]) in
  get_factories klass = Some (λ _, rgb_yuv_i420) ∧
  entry ∈ factory_index
            (priv (index_factories klass gst_auto_convert2_init).2) ∧
  factory entry ∈ rgb_yuv_i420 ∧
  entry_sink_caps entry = [RGB] ∧ entry_src_caps entry = [YUV].
Proof.
  intros klass entry.
  assert (get_factories klass = Some (λ _, rgb_yuv_i420)) as Hget
    by reflexivity.
  assert (entry ∈ factory_index
                    (priv (index_factories klass gst_auto_convert2_init).2))
    as Hentry by (right; left).
  split; [exact Hget|]. split; [exact Hentry|].
  destruct (index_factories_entries (H:=FormatCaps) klass
              (λ _, rgb_yuv_i420) entry Hget Hentry)
    as (Hlisted & _ & _ & _ & _ & Hsink & Hsrc).
  split; [exact Hlisted|]. split; [exact Hsink|exact Hsrc].
Defined.

(** X5. [find_pad_templates] answers TRUE exactly for a factory with one
    static pad template of direction [GST_PAD_SINK] and one of any other
    direction: a template of direction [GST_PAD_UNKNOWN] counts as a source
    template. It answers FALSE for a factory without templates. *)
Theorem find_pad_templates_one_sink_one_other `{GstCapsApi}
    (f : GstElementFactory) :
  ((find_pad_templates f).1.1 = true ↔
   count_templates GST_PAD_SINK f = 1 ∧
   count_templates GST_PAD_SRC f + count_templates GST_PAD_UNKNOWN f = 1) ∧
  (static_pad_templates f = [] → (find_pad_templates f).1.1 = false).
Proof.
  split.
  - change ((find_pad_templates f).1.1) with (factory_qualifies f).
    rewrite factory_qualifies_count.
    assert (length (filter (λ t, direction t ≠ GST_PAD_SINK)
                      (static_pad_templates f))
            = count_templates GST_PAD_SRC f
              + count_templates GST_PAD_UNKNOWN f) as ->; [|done].
    unfold count_templates.
    induction (static_pad_templates f) as [|t it IH]; [done|].
    destruct (direction t) eqn:Ht.
    + rewrite (filter_cons_True _ t), (filter_cons_False _ t),
        (filter_cons_True (λ t, direction t = GST_PAD_UNKNOWN) t)
        by (rewrite Ht; done || by intros ?).
      simpl. rewrite IH. lia.
    + rewrite (filter_cons_True _ t), (filter_cons_True _ t),
        (filter_cons_False (λ t, direction t = GST_PAD_UNKNOWN) t)
        by (rewrite Ht; done || by intros ?).
      simpl. rewrite IH. lia.
    + rewrite (filter_cons_False _ t), (filter_cons_False _ t),
        (filter_cons_False (λ t, direction t = GST_PAD_UNKNOWN) t)
        by (rewrite Ht; done || by intros ?).
      done.
  - unfold find_pad_templates. by intros ->.
Qed.

(** X6. The index of a constructed element is empty exactly when the class
    has no [get_factories] or no listed factory qualifies; an error is
    posted only in the first case; and on an element with an empty index
    [generate_next_chain] finds nothing, for any generator. *)
Theorem constructed_empty_index `{GstCapsApi}
    (klass : GstAutoConvert2Class) :
  let constructed :=
    gst_auto_convert2_constructed klass gst_auto_convert2_init in
  let index := factory_index (priv constructed.2) in
  (index = [] ↔
   match get_factories klass with
   | None => True
   | Some get =>
       ∀ f, f ∈ get gst_auto_convert2_init →
            (find_pad_templates f).1.1 = false
   end) ∧
  (constructed.1 ≠ [] ↔ get_factories klass = None) ∧
  (index = [] →
   ∀ klass' fuel gen,
     generate_next_chain klass' constructed.2 fuel gen = Some (false, gen)).
Proof.
  intros constructed index. split; [|split].
  - destruct (get_factories klass) as [get|] eqn:Hget.
    + pose proof (index_factories_factories klass get Hget) as Hrev.
      change (factory_index _) with index in Hrev. split.
      * intros Hempty f Hf. rewrite Hempty in Hrev. simpl in Hrev.
        apply not_true_is_false. intros Hq.
        assert (f ∈ filter (λ f, factory_qualifies f = true)
                      (get gst_auto_convert2_init)) as Hin
          by by apply list_elem_of_filter.
        apply elem_of_reverse in Hin. rewrite <-Hrev in Hin.
        by apply elem_of_nil in Hin.
      * intros Hnone. apply fmap_nil_inv with (f := factory).
        rewrite Hrev.
        destruct (filter (λ f, factory_qualifies f = true)
                    (get gst_auto_convert2_init)) as [|g l] eqn:Hfilter;
          [done|].
        assert (g ∈ filter (λ f, factory_qualifies f = true)
                      (get gst_auto_convert2_init)) as Hg
          by (rewrite Hfilter; by left).
        apply list_elem_of_filter in Hg as [Hq Hg].
        unfold factory_qualifies in Hq. by rewrite (Hnone g Hg) in Hq.
    + split; [done|]. intros _. subst index constructed.
      unfold gst_auto_convert2_constructed, index_factories.
      by rewrite Hget.
  - subst constructed.
    unfold gst_auto_convert2_constructed, index_factories.
    destruct (get_factories klass) as [get|]; [|done].
    destruct (index_factories_merge _ _ _). simpl. split; done.
  - intros Hempty klass' fuel gen. unfold generate_next_chain.
    fold index. by rewrite Hempty.
Qed.

(** The caps of the element after [index_factories], as unions over the
    index. *)
Lemma index_factories_caps_intersect `{GstCapsApi}
    (klass : GstAutoConvert2Class)
    (get : GstAutoConvert2 → list GstElementFactory) :
  caps_merge_is_union → get_factories klass = Some get →
  let element := (index_factories klass gst_auto_convert2_init).2 in
  ∃ sink_caps src_caps,
    priv_sink_caps (priv element) = Some sink_caps ∧
    priv_src_caps (priv element) = Some src_caps ∧
    ∀ c,
      (gst_caps_can_intersect c sink_caps = true ↔
       ∃ e, e ∈ factory_index (priv element) ∧
            gst_caps_can_intersect c (entry_sink_caps e) = true) ∧
      (gst_caps_can_intersect c src_caps = true ↔
       ∃ e, e ∈ factory_index (priv element) ∧
            gst_caps_can_intersect c (entry_src_caps e) = true).
Proof.
  intros Hunion Hget element. subst element.
  unfold index_factories. rewrite Hget.
  set (index := index_factories_prepend _ _).
  pose proof (λ c, index_factories_merge_intersect index gst_caps_new_empty
                     gst_caps_new_empty c Hunion) as Hmerge.
  destruct (index_factories_merge index _ _) as [sink_caps src_caps].
  cbn [snd priv priv_sink_caps priv_src_caps factory_index].
  exists sink_caps, src_caps. split; [done|]. split; [done|]. intros c.
  destruct (Hmerge c) as [Hsink Hsrc]. cbn [fst snd] in Hsink, Hsrc.
  destruct Hunion as [Hempty _].
  rewrite Hsink, Hsrc, !Hempty, !orb_false_l, !existsb_exists.
  split; (split; intros (e & He & Hc); exists e;
          (split; [by apply list_elem_of_In|done])).
Qed.


(** X7. When merging caps is taking their union, the two caps that
    [index_factories] stores in the element intersect caps [c] exactly when
    the sink caps, respectively the source caps, of some entry of the index
    do. *)
Theorem index_factories_caps_union `{GstCapsApi}
    (klass : GstAutoConvert2Class)
    (get : GstAutoConvert2 → list GstElementFactory) :
  caps_merge_is_union → get_factories klass = Some get →
  let element := (index_factories klass gst_auto_convert2_init).2 in
  ∃ sink_caps src_caps,
    priv_sink_caps (priv element) = Some sink_caps ∧
    priv_src_caps (priv element) = Some src_caps ∧
    ∀ c,
      (gst_caps_can_intersect c sink_caps = true ↔
       ∃ e, e ∈ factory_index (priv element) ∧
            gst_caps_can_intersect c (entry_sink_caps e) = true) ∧
      (gst_caps_can_intersect c src_caps = true ↔
       ∃ e, e ∈ factory_index (priv element) ∧
            gst_caps_can_intersect c (entry_src_caps e) = true).
Proof.
  intros Hunion Hget.
  exact (index_factories_caps_intersect klass get Hunion Hget).
Qed.

Lemma format_caps_merge_is_union : @caps_merge_is_union FormatCaps.
Proof.
  split.
  - intros c. induction c as [|x c IH]; [done|]. simpl. exact IH.
  - intros c a b. simpl. unfold format_caps_can_intersect.
    induction c as [|x c IH]; [done|]. cbn [existsb].
    rewrite IH, existsb_app.
    destruct (existsb (Nat.eqb x) a), (existsb (Nat.eqb x) b); simpl;
      try done; by rewrite ?orb_true_r.
Qed.

Lemma index_factories_caps_union_witness :
  let klass := example_class rgb_yuv_i420 in
  let element := (index_factories klass gst_auto_convert2_init).2 in
  @caps_merge_is_union FormatCaps ∧
  get_factories klass = Some (λ _, rgb_yuv_i420) ∧
  ∃ sink_caps src_caps,
    priv_sink_caps (priv element) = Some sink_caps ∧
    priv_src_caps (priv element) = Some src_caps ∧
    ∀ c,
      (format_caps_can_intersect c sink_caps = true ↔
       ∃ e, e ∈ factory_index (priv element) ∧
            format_caps_can_intersect c (entry_sink_caps e) = true) ∧
      (format_caps_can_intersect c src_caps = true ↔
       ∃ e, e ∈ factory_index (priv element) ∧
            format_caps_can_intersect c (entry_src_caps e) = true).
Proof.
  intros klass element.
  assert (get_factories klass = Some (λ _, rgb_yuv_i420)) as Hget
    by reflexivity.
  split; [exact format_caps_merge_is_union|]. split; [exact Hget|].
  exact (index_factories_caps_union (H:=FormatCaps) klass
           (λ _, rgb_yuv_i420) format_caps_merge_is_union Hget).
Defined.

(** * Further properties of the generator *)

(** X8. On a generator whose cursors point into the catalog,
    [advance_chain_generator] with a depth up to the length returns, and
    whether it reports success or not the cursors still point into the
    catalog, their number is unchanged, and so are the route and the
    [init] flag. *)
Theorem advance_chain_generator_keeps_wf `{GstCapsApi}
    (factory_index : list FactoryListEntry)
    (route : GstAutoConvert2TransformRoute) (gen : ChainGenerator)
    (N D : nat) :
  (Z.of_nat N ≤ G_MAXINT)%Z →
  generator_wf (length factory_index) N route gen → D ≤ N →
  ∃ advanced gen',
    advance_chain_generator gen factory_index (Z.of_nat D)
    = Some (advanced, gen') ∧
    generator_wf (length factory_index) N route gen' ∧
    gen_init gen' = gen_init gen.
Proof.
  intros HN (Hsink & Hsrc & Hlen & Hwf) HD.
  rewrite (advance_chain_generator_spec factory_index gen N D) by done.
  destruct (advance_spec (length factory_index) D (iterators gen))
    as [its|] eqn:Hspec.
  - destruct (advance_spec_rank _ _ _ _ _ Hwf HD Hspec) as [Hwf' _].
    eexists _, _. split; [done|]. split; [|done].
    exact (conj Hsink (conj Hsrc (conj Hlen Hwf'))).
  - eexists _, _. split; [done|]. split; [|done].
    split; [done|]. split; [done|]. split; [done|].
    cbn [set_iterators iterators]. destruct Hwf as [HlenN Hall]. split.
    + rewrite length_app, length_take, length_replicate. lia.
    + apply Forall_app. split; [by apply Forall_take|].
      destruct (decide (D = N)) as [->|Hne].
      { by rewrite Nat.sub_diag. }
      apply Forall_replicate.
      destruct (lookup_lt_is_Some_2 (iterators gen) D) as [c Hc]; [lia|].
      pose proof (Forall_lookup_1 _ _ _ _ Hall Hc). simpl in *. lia.
Qed.

Lemma advance_chain_generator_keeps_wf_witness :
  let index := factory_index (priv (example_element rgb_yuv_i420)) in
  let route := example_route [RGB] [I420] in
  let gen := init_chain_generator index route (Z.of_nat 2) in
  (Z.of_nat 2 ≤ G_MAXINT)%Z ∧ generator_wf (length index) 2 route gen ∧
  1 ≤ 2 ∧
  ∃ advanced gen',
    advance_chain_generator gen index (Z.of_nat 1) = Some (advanced, gen') ∧
    generator_wf (length index) 2 route gen' ∧
    gen_init gen' = gen_init gen.
Proof.
  intros index route gen.
  assert (Z.of_nat 2 ≤ G_MAXINT)%Z as HN by (by vm_compute).
  assert (generator_wf (length index) 2 route gen) as Hgen.
  { repeat split. repeat constructor. }
  assert (1 ≤ 2) as HD by lia.
  split; [exact HN|]. split; [exact Hgen|]. split; [exact HD|].
  exact (advance_chain_generator_keeps_wf (H:=FormatCaps) index route gen 2 1
           HN Hgen HD).
Defined.

(** X9. With a depth equal to the length, [advance_chain_generator]
    touches no cursor and reports that the generator is done; so a generator
    of length 0 is done at its first advance, and this on any catalog, the
    empty one included. *)
Theorem advance_chain_generator_at_length `{GstCapsApi}
    (factory_index : list FactoryListEntry) (gen : ChainGenerator)
    (N : nat) :
  (Z.of_nat N ≤ G_MAXINT)%Z → gen_length gen = Z.of_nat N →
  advance_chain_generator gen factory_index (Z.of_nat N)
  = Some (false, set_iterators gen (iterators gen)).
Proof.
  intros HN Hlen. unfold advance_chain_generator.
  rewrite Hlen, (int_of_nat N) by done.
  assert (∀ fuel its,
            advance_chain_generator_step factory_index (Z.of_nat N) fuel
              (Z.of_nat N) its = Some (Z.of_nat N, its)) as ->.
  { intros fuel its. destruct fuel; simpl;
      rewrite guint_of_nat by done; by rewrite Z.ltb_irrefl. }
  cbn [mbind option_bind]. rewrite guint_of_nat by done.
  by rewrite Z.eqb_refl.
Qed.

Lemma advance_chain_generator_at_length_witness :
  let gen := init_chain_generator [] (example_route [RGB] [RGB]) 0 in
  (Z.of_nat 0 ≤ G_MAXINT)%Z ∧ gen_length gen = Z.of_nat 0 ∧
  advance_chain_generator gen [] (Z.of_nat 0)
  = Some (false, set_iterators gen (iterators gen)).
Proof.
  intros gen.
  assert (Z.of_nat 0 ≤ G_MAXINT)%Z as HN by (by vm_compute).
  split; [exact HN|]. split; [reflexivity|].
  exact (advance_chain_generator_at_length (H:=FormatCaps) [] gen 0 HN
           eq_refl).
Defined.

Lemma advance_chain_generator_reset_overflow (D N : nat) mid :
  (Z.of_nat D ≤ G_MAXINT)%Z → N < D →
  ∀ pre fuel, length pre + length mid = N →
  advance_chain_generator_reset (Z.of_nat D) fuel (Z.of_nat (length pre))
    (pre ++ mid) = None.
Proof.
  intros HD HND. induction mid as [|c mid IH]; intros pre fuel Hlen.
  - simpl in Hlen. rewrite app_nil_r.
    destruct fuel as [|fuel]; cbn [advance_chain_generator_reset];
      rewrite guint_of_nat by lia;
      (destruct (Z.eqb_spec (Z.of_nat (length pre)) (Z.of_nat D)); [lia|]);
      [done|].
    unfold array_set.
    destruct (Z.ltb_spec (Z.of_nat (length pre)) 0); [done|].
    rewrite Nat2Z.id. by rewrite Nat.ltb_irrefl.
  - simpl in Hlen.
    destruct fuel as [|fuel]; cbn [advance_chain_generator_reset];
      rewrite guint_of_nat by lia;
      (destruct (Z.eqb_spec (Z.of_nat (length pre)) (Z.of_nat D)); [lia|]);
      [done|].
    rewrite array_set_nat by (rewrite length_app; simpl; lia).
    cbn [mbind option_bind]. rewrite list_insert_middle by done.
    replace (int_of (Z.of_nat (length pre) + 1))
      with (Z.of_nat (length (pre ++ [0]))).
    2:{ rewrite length_app. simpl. rewrite Nat2Z.inj_add.
        symmetry. apply int_of_id. unfold G_MAXINT in HD. lia. }
    replace (pre ++ 0 :: mid) with ((pre ++ [0]) ++ mid)
      by by rewrite <-app_assoc.
    apply IH. rewrite length_app. simpl. lia.
Qed.

(** X10. A depth beyond the length is outside the domain of
    [advance_chain_generator]: the first loop does not run, the generator is
    not taken for done, and the second loop stores the head of the index at
    the positions [0 .. starting_depth - 1], past the end of the array of
    cursors. *)
Theorem advance_chain_generator_beyond_length `{GstCapsApi}
    (factory_index : list FactoryListEntry) (gen : ChainGenerator)
    (N D : nat) :
  gen_length gen = Z.of_nat N → length (iterators gen) = N →
  N < D → (Z.of_nat D ≤ G_MAXINT)%Z →
  advance_chain_generator gen factory_index (Z.of_nat D) = None.
Proof.
  intros Hlen HlenN HND HD. unfold advance_chain_generator.
  rewrite Hlen, (int_of_nat D) by done.
  assert (∀ fuel its,
            advance_chain_generator_step factory_index (Z.of_nat N) fuel
              (Z.of_nat D) its = Some (Z.of_nat D, its)) as ->.
  { intros fuel its. destruct fuel; simpl; rewrite guint_of_nat by done;
      by destruct (Z.ltb_spec (Z.of_nat D) (Z.of_nat N)); [lia|]. }
  cbn [mbind option_bind]. rewrite guint_of_nat by done.
  destruct (Z.eqb_spec (Z.of_nat D) (Z.of_nat N)); [lia|].
  pose proof (advance_chain_generator_reset_overflow D N (iterators gen) HD
                HND [] (Z.to_nat (Z.of_nat D)) HlenN) as Hreset.
  simpl in Hreset. change (Z.of_nat 0) with 0%Z in Hreset.
  by rewrite Hreset.
Qed.

Lemma advance_chain_generator_beyond_length_witness :
  let index := factory_index (priv (example_element rgb_yuv_i420)) in
  let gen := init_chain_generator index (example_route [RGB] [I420]) 2 in
  gen_length gen = Z.of_nat 2 ∧ length (iterators gen) = 2 ∧ 2 < 3 ∧
  (Z.of_nat 3 ≤ G_MAXINT)%Z ∧
  advance_chain_generator gen index (Z.of_nat 3) = None.
Proof.
  intros index gen.
  assert (2 < 3) as HND by lia.
  assert (Z.of_nat 3 ≤ G_MAXINT)%Z as HD by (by vm_compute).
  split; [reflexivity|]. split; [reflexivity|]. split; [exact HND|].
  split; [exact HD|].
  exact (advance_chain_generator_beyond_length (H:=FormatCaps) index gen 2 3
           eq_refl eq_refl HND HD).
Defined.

(** X11. A successful advance from depth [D] lands on the next multiple of
    [K ^ D] in the order of the generator: with [r] the rank of the current
    cursors, the new rank is [K ^ D * (r / K ^ D + 1)], and the new cursors
    are those that plain enumeration (advancing from depth 0) reaches
    [K ^ D - r mod K ^ D] steps after the current ones. *)
Theorem advance_chain_generator_jump `{GstCapsApi}
    (autoconvert2 : GstAutoConvert2) (gen gen' : ChainGenerator)
    (N D fuel : nat) :
  let index := factory_index (priv autoconvert2) in
  let K := length index in
  let r := rank K (iterators gen) in
  (Z.of_nat N ≤ G_MAXINT)%Z → gen_length gen = Z.of_nat N →
  chain_wf K N (iterators gen) → D ≤ N →
  advance_chain_generator gen index (Z.of_nat D) = Some (true, gen') →
  K ^ N - r ≤ fuel →
  rank K (iterators gen') = K ^ D * (r `div` K ^ D + 1) ∧
  ∃ visited,
    visited_chains autoconvert2 0 fuel gen = Some visited ∧
    visited !! (K ^ D - r `mod` K ^ D) = Some (iterators gen').
Proof.
  intros index K r HN Hlen Hwf HD Hadv Hfuel.
  rewrite (advance_chain_generator_spec index gen N D) in Hadv by done.
  fold K in Hadv.
  destruct (advance_spec K D (iterators gen)) as [its|] eqn:Hspec; [|done].
  injection Hadv as <-. cbn [set_iterators iterators].
  destruct (advance_spec_rank K N D _ _ Hwf HD Hspec) as [Hwf' Hrank'].
  pose proof Hwf as [HlenN Hall].
  assert (0 < K ^ D) as Hpow.
  { pose proof (rank_lt K (take D (iterators gen))
                  (Forall_take _ _ _ Hall)) as Hlt.
    rewrite length_take in Hlt.
    replace (D `min` length (iterators gen)) with D in Hlt by lia. lia. }
  assert (rank K (take D (iterators gen)) < K ^ D) as Hlow.
  { pose proof (rank_lt K (take D (iterators gen))
                  (Forall_take _ _ _ Hall)) as Hlt.
    rewrite length_take in Hlt.
    by replace (D `min` length (iterators gen)) with D in Hlt by lia. }
  pose proof (rank_take_drop K D (iterators gen) ltac:(lia)) as Hsplit.
  fold r in Hsplit.
  assert (r `div` K ^ D = rank K (drop D (iterators gen))) as Hdiv.
  { symmetry. apply (Nat.div_unique r (K ^ D) _
                       (rank K (take D (iterators gen)))); [done|lia]. }
  assert (r `mod` K ^ D = rank K (take D (iterators gen))) as Hmod.
  { symmetry. apply (Nat.mod_unique r (K ^ D)
                       (rank K (drop D (iterators gen)))); [done|lia]. }
  split; [rewrite Hrank', Hdiv; lia|].
  rewrite (visited_chains_depth_0 autoconvert2 N fuel HN gen Hlen Hwf)
    by done.
  fold index K r. eexists. split; [done|].
  rewrite lookup_drop.
  replace (r + (K ^ D - r `mod` K ^ D)) with (rank K its)
    by (rewrite Hrank', Hmod; lia).
  by apply all_chains_lookup.
Qed.

Lemma advance_chain_generator_jump_witness :
  let element := example_element rgb_yuv_i420 in
  let index := factory_index (priv element) in
  let gen := init_chain_generator index (example_route [RGB] [I420]) 2 in
  let gen' := set_iterators gen [0; 1] in
  (Z.of_nat 2 ≤ G_MAXINT)%Z ∧ gen_length gen = Z.of_nat 2 ∧
  chain_wf 2 2 (iterators gen) ∧ 1 ≤ 2 ∧
  advance_chain_generator gen index (Z.of_nat 1) = Some (true, gen') ∧
  2 ^ 2 - 0 ≤ 4 ∧
  rank 2 [0; 1] = 2 ^ 1 * (0 `div` 2 ^ 1 + 1) ∧
  ∃ visited,
    visited_chains element 0 4 gen = Some visited ∧
    visited !! (2 ^ 1 - 0 `mod` 2 ^ 1) = Some [0; 1].
Proof.
  intros element index gen gen'.
  assert (Z.of_nat 2 ≤ G_MAXINT)%Z as HN by (by vm_compute).
  assert (chain_wf 2 2 (iterators gen)) as Hwf by concrete_chain_wf.
  assert (1 ≤ 2) as HD by lia.
  assert (2 ^ 2 - 0 ≤ 4) as Hfuel by (simpl; lia).
  split; [exact HN|]. split; [reflexivity|]. split; [exact Hwf|].
  split; [exact HD|]. split; [reflexivity|]. split; [exact Hfuel|].
  exact (advance_chain_generator_jump (H:=FormatCaps) element gen gen' 2 1 4
           HN eq_refl Hwf HD eq_refl Hfuel).
Defined.

(** * Further properties of the search *)

Section SearchMore.
Context `{GstCapsApi}.
Variable klass : GstAutoConvert2Class.
Variable autoconvert2 : GstAutoConvert2.
Variable route : GstAutoConvert2TransformRoute.
Variable N : nat.
Hypothesis Hklass : validate_chain klass = gst_auto_convert2_validate_chain.
Hypothesis HN : (Z.of_nat N ≤ G_MAXINT)%Z.

Local Abbreviation fi := (factory_index (priv autoconvert2)).
Local Abbreviation K := (length (factory_index (priv autoconvert2))).
Local Abbreviation accepted := (chain_accepted klass autoconvert2 route N).

(** A chain that the loop of [generate_next_chain] gives out is one the
    pipeline accepts, in a generator that is still well formed. *)
Lemma generate_next_chain_loop_found (fuel : nat) :
  ∀ (gen gen' : ChainGenerator) (D : nat),
    generator_wf K N route gen → D ≤ N →
    generate_next_chain_loop klass autoconvert2 fuel (Z.of_nat D) gen
    = Some (true, gen') →
    generator_wf K N route gen' ∧ gen_init gen' = false ∧
    accepted (iterators gen') = true.
Proof.
  induction fuel as [|fuel IH];
    intros gen gen' D (Hsink & Hsrc & Hlen & Hwf) HD Hloop; [done|].
  cbn [generate_next_chain_loop] in Hloop.
  assert (∀ gen1,
            generator_wf K N route gen1 → gen_init gen1 = false →
            (depth ← validate_chain klass autoconvert2 (gen_sink_caps gen1)
                       (gen_src_caps gen1) (iterators gen1)
                       (gen_length gen1);
             if (depth <? 0)%Z then Some (true, gen1)
             else generate_next_chain_loop klass autoconvert2 fuel
                    (if (0 <? depth)%Z then int_of (depth - 1) else depth)
                    gen1) = Some (true, gen') →
            generator_wf K N route gen' ∧ gen_init gen' = false ∧
            accepted (iterators gen') = true) as Hrest.
  { intros gen1 Hgen1 Hinit1 Hrun.
    pose proof Hgen1 as (Hsink1 & Hsrc1 & Hlen1 & Hwf1).
    rewrite Hklass, Hsink1, Hsrc1, Hlen1 in Hrun.
    destruct (validate_chain_depth autoconvert2 (route_sink_caps route)
                (route_src_caps route) N HN _ Hwf1)
      as (r & Hr & [[Hneg Hnone]|(p & -> & Hp & Hdefect)]);
      rewrite Hr in Hrun; cbn [mbind option_bind] in Hrun.
    - destruct (Z.ltb_spec r 0); [|lia]. injection Hrun as <-.
      split; [done|]. split; [done|].
      by apply chain_accepted_no_defect.
    - destruct (Z.ltb_spec (Z.of_nat p) 0); [lia|].
      rewrite (next_depth_skip N HN p Hp) in Hrun.
      apply (IH gen1 gen' (skip_depth p)); [done| |done].
      unfold skip_depth. lia. }
  destruct (gen_init gen) eqn:Hinit.
  - cbn [mbind option_bind negb] in Hloop.
    apply (Hrest (set_init gen false)); [|done|done].
    exact (conj Hsink (conj Hsrc (conj Hlen Hwf))).
  - rewrite guint_of_nat in Hloop by lia.
    rewrite (advance_chain_generator_spec fi gen N D) in Hloop by done.
    cbn [mbind option_bind] in Hloop.
    destruct (advance_spec K D (iterators gen)) as [its|] eqn:Hadv;
      cbn [negb] in Hloop; [|done].
    destruct (advance_spec_rank _ _ _ _ _ Hwf HD Hadv) as [Hwf' _].
    apply (Hrest (set_iterators gen its)); [|done|done].
    exact (conj Hsink (conj Hsrc (conj Hlen Hwf'))).
Qed.

Lemma generate_next_chain_found (fuel : nat) (gen gen' : ChainGenerator) :
  generator_wf K N route gen →
  generate_next_chain klass autoconvert2 fuel gen = Some (true, gen') →
  generator_wf K N route gen' ∧ gen_init gen' = false ∧
  accepted (iterators gen') = true.
Proof.
  intros Hgen Hrun.
  assert (generate_next_chain_loop klass autoconvert2 fuel (Z.of_nat 0) gen
          = Some (true, gen')) as Hloop.
  { unfold generate_next_chain in Hrun. by destruct fi. }
  apply (generate_next_chain_loop_found fuel gen gen' 0); [done|lia|done].
Qed.

End SearchMore.

Lemma find_Some_split {A} (P : A → bool) (l : list A) (x : A) :
  find P l = Some x →
  ∃ l1 l2, l = l1 ++ x :: l2 ∧ Forall (λ y, P y = false) l1 ∧ P x = true.
Proof.
  induction l as [|y l IH]; [done|]. simpl. destruct (P y) eqn:Hy.
  - intros [= ->]. by exists [], l.
  - intros Hfind. destruct (IH Hfind) as (l1 & l2 & -> & Hl1 & Hx).
    exists (y :: l1), l2. split; [done|]. split; [|done].
    by apply Forall_cons.
Qed.

Lemma filter_rejected_nil {A} (P : A → bool) (l : list A) :
  Forall (λ y, P y = false) l → filter (λ y, P y = true) l = [].
Proof.
  induction 1 as [|y l Hy _ IH]; [done|].
  rewrite filter_cons_False by (rewrite Hy; done). done.
Qed.

Lemma find_None_Forall {A} (P : A → bool) (l : list A) :
  find P l = None → Forall (λ y, P y = false) l.
Proof.
  induction l as [|y l IH]; [done|]. simpl. destruct (P y) eqn:Hy; [done|].
  intros Hfind. apply Forall_cons. split; [done|]. by apply IH.
Qed.

(** X12. A chain that [generate_next_chain] gives out is valid: its
    cursors point into the catalog, the caps at each of its boundaries
    intersect, and no two adjacent positions hold the same entry. The
    generator keeps its route and length, and its [init] flag is cleared. *)
Theorem generate_next_chain_sound `{GstCapsApi}
    (klass : GstAutoConvert2Class) (autoconvert2 : GstAutoConvert2)
    (route : GstAutoConvert2TransformRoute) (N fuel : nat)
    (gen gen' : ChainGenerator) :
  validate_chain klass = gst_auto_convert2_validate_chain →
  (Z.of_nat N ≤ G_MAXINT)%Z →
  let index := factory_index (priv autoconvert2) in
  generator_wf (length index) N route gen →
  generate_next_chain klass autoconvert2 fuel gen = Some (true, gen') →
  generator_wf (length index) N route gen' ∧ gen_init gen' = false ∧
  (∀ b, b ≤ N →
        boundary_intersects index (route_sink_caps route)
          (route_src_caps route) (iterators gen') b = true) ∧
  (∀ d, adjacent_duplicate (iterators gen') d = false).
Proof.
  intros Hklass HN index Hgen Hrun.
  destruct (generate_next_chain_found klass autoconvert2 route N Hklass HN
              fuel gen gen' Hgen Hrun) as (Hgen' & Hinit' & Hacc).
  split; [done|]. split; [done|].
  pose proof Hgen' as (_ & _ & _ & Hwf').
  rewrite (chain_accepted_no_defect klass autoconvert2 route N Hklass HN)
    in Hacc by done.
  split.
  - intros b Hb. specialize (Hacc b Hb).
    apply orb_false_iff in Hacc as [Hb' _]. by apply negb_false_iff in Hb'.
  - intros d. destruct (decide (d ≤ N)) as [Hd|Hd].
    + specialize (Hacc d Hd). by apply orb_false_iff in Hacc as [_ ?].
    + destruct Hwf' as [Hlen _]. apply adjacent_duplicate_end. lia.
Qed.

Lemma generate_next_chain_sound_witness :
  let klass := example_class rgb_yuv_i420 in
  let element := example_element rgb_yuv_i420 in
  let route := example_route [RGB] [I420] in
  let gen :=
    init_chain_generator (factory_index (priv element)) route (Z.of_nat 2) in
  let gen' := set_init (set_iterators gen [1; 0]) false in
  validate_chain klass = gst_auto_convert2_validate_chain ∧
  (Z.of_nat 2 ≤ G_MAXINT)%Z ∧ generator_wf 2 2 route gen ∧
  generate_next_chain klass element 5 gen = Some (true, gen') ∧
  generator_wf 2 2 route gen' ∧ gen_init gen' = false ∧
  (∀ b, b ≤ 2 →
        boundary_intersects (factory_index (priv element)) [RGB] [I420]
          [1; 0] b = true) ∧
  (∀ d, adjacent_duplicate [1; 0] d = false).
Proof.
  intros klass element route gen gen'.
  assert (validate_chain klass = gst_auto_convert2_validate_chain) as Hklass
    by reflexivity.
  assert (Z.of_nat 2 ≤ G_MAXINT)%Z as HN by (by vm_compute).
  assert (generator_wf 2 2 route gen) as Hgen.
  { repeat split. repeat constructor. }
  assert (generate_next_chain klass element 5 gen = Some (true, gen'))
    as Hrun by reflexivity.
  split; [exact Hklass|]. split; [exact HN|]. split; [exact Hgen|].
  split; [exact Hrun|].
  exact (generate_next_chain_sound (H:=FormatCaps) klass element route 2 5
           gen gen' Hklass HN Hgen Hrun).
Defined.

Section RestartFacts.
Context `{GstCapsApi}.
Variable klass : GstAutoConvert2Class.
Variable autoconvert2 : GstAutoConvert2.
Variable route : GstAutoConvert2TransformRoute.
Variable N : nat.
Hypothesis Hklass : validate_chain klass = gst_auto_convert2_validate_chain.
Hypothesis HN : (Z.of_nat N ≤ G_MAXINT)%Z.

Local Abbreviation K := (length (factory_index (priv autoconvert2))).
Local Abbreviation accepted := (chain_accepted klass autoconvert2 route N).

(** Calling [generate_next_chain] again and again gives out, in the order
    of the generator, the accepted candidates from the first one that the
    generator has not given out yet. *)
Lemma generated_chains_from (fuel calls : nat) :
  0 < K → K ^ N < fuel →
  ∀ gen,
    generator_wf K N route gen →
    let start :=
      if gen_init gen then rank K (iterators gen)
      else S (rank K (iterators gen)) in
    K ^ N - start < calls →
    generated_chains klass autoconvert2 fuel calls gen
    = Some (filter (λ c, accepted c = true) (drop start (all_chains K N))).
Proof.
  intros HK Hfuel. induction calls as [|calls IH]; intros gen Hgen start Hcalls;
    [lia|].
  cbn [generated_chains].
  destruct (generate_next_chain_search klass autoconvert2 route N Hklass HN
              gen fuel HK Hgen) as (found & gen' & Hrun & Hfind).
  { destruct (gen_init gen); lia. }
  fold start in Hfind. rewrite Hrun. cbn [mbind option_bind].
  destruct (find accepted (drop start (all_chains K N))) as [chain|]
    eqn:Hnext.
  - destruct Hfind as [-> Hchain].
    destruct (generate_next_chain_found klass autoconvert2 route N Hklass HN
                fuel gen gen' Hgen Hrun) as (Hgen' & Hinit' & _).
    apply find_Some_split in Hnext as (l1 & l2 & Hsplit & Hl1 & Hacc).
    assert (all_chains K N !! (start + length l1) = Some chain) as Hat.
    { rewrite <-lookup_drop, Hsplit. by apply list_lookup_middle. }
    pose proof (all_chains_lookup_inv _ _ _ _ Hat) as [_ Hrank].
    pose proof (lookup_lt_Some _ _ _ Hat) as Hlt.
    rewrite all_chains_length in Hlt.
    rewrite IH; [|done|rewrite Hinit', Hchain, Hrank; lia].
    cbn zeta. rewrite Hinit', Hchain, Hrank.
    replace (S (start + length l1)) with (start + S (length l1)) by lia.
    rewrite <-drop_drop, Hsplit.
    replace (drop (S (length l1)) (l1 ++ chain :: l2)) with l2.
    2:{ rewrite (cons_middle chain l1 l2), app_assoc.
        symmetry. apply drop_app_length'. rewrite length_app. simpl. lia. }
    rewrite filter_app, (filter_rejected_nil accepted l1 Hl1).
    cbn [fmap option_fmap option_map app].
    by rewrite filter_cons_True by done.
  - rewrite Hfind. f_equal. symmetry.
    by apply filter_rejected_nil, find_None_Forall.
Qed.

End RestartFacts.

(** X13. A generator is restartable: calling [generate_next_chain] on a
    fresh generator until it returns FALSE gives out exactly the candidates
    that the pipeline accepts, each once, in the order of the generator. *)
Theorem generated_chains_all_accepted `{GstCapsApi}
    (klass : GstAutoConvert2Class) (autoconvert2 : GstAutoConvert2)
    (route : GstAutoConvert2TransformRoute) (N fuel calls : nat) :
  validate_chain klass = gst_auto_convert2_validate_chain →
  (Z.of_nat N ≤ G_MAXINT)%Z →
  let index := factory_index (priv autoconvert2) in
  let K := length index in
  1 ≤ K → K ^ N < fuel → K ^ N < calls →
  generated_chains klass autoconvert2 fuel calls
    (init_chain_generator index route (Z.of_nat N))
  = Some (filter (λ c, chain_accepted klass autoconvert2 route N c = true)
            (all_chains K N)).
Proof.
  intros Hklass HN index K HK Hfuel Hcalls.
  pose proof (init_chain_generator_wf index route N HK) as Hgen.
  rewrite (generated_chains_from klass autoconvert2 route N Hklass HN fuel
             calls HK Hfuel _ Hgen).
  - cbn [init_chain_generator gen_init iterators].
    by rewrite Nat2Z.id, rank_replicate, drop_0.
  - cbn [init_chain_generator gen_init iterators]. fold index K. lia.
Qed.

Lemma generated_chains_all_accepted_witness :
  let klass := example_class rgb_yuv_i420 in
  let element := example_element rgb_yuv_i420 in
  let route := example_route [RGB; YUV] [YUV; I420] in
  validate_chain klass = gst_auto_convert2_validate_chain ∧
  (Z.of_nat 1 ≤ G_MAXINT)%Z ∧ 1 ≤ 2 ∧ 2 ^ 1 < 3 ∧
  generated_chains klass element 3 3
    (init_chain_generator (factory_index (priv element)) route (Z.of_nat 1))
  = Some [[0]; [1]].
Proof.
  intros klass element route.
  assert (validate_chain klass = gst_auto_convert2_validate_chain) as Hklass
    by reflexivity.
  assert (Z.of_nat 1 ≤ G_MAXINT)%Z as HN by (by vm_compute).
  assert (1 ≤ 2) as HK by lia.
  assert (2 ^ 1 < 3) as Hfuel by (simpl; lia).
  split; [exact Hklass|]. split; [exact HN|]. split; [exact HK|].
  split; [exact Hfuel|].
  exact (eq_trans
           (generated_chains_all_accepted (H:=FormatCaps) klass element
              route 1 3 3 Hklass HN HK Hfuel Hfuel)
           eq_refl).
Defined.

(** X14. On a catalog that is not empty, the search for the chain of
    length 0 succeeds exactly when the caps of the two ends of the route
    intersect; the generator comes back with its [init] flag cleared. *)
Theorem generate_next_chain_length_0 `{GstCapsApi}
    (klass : GstAutoConvert2Class) (autoconvert2 : GstAutoConvert2)
    (route : GstAutoConvert2TransformRoute) (fuel : nat) :
  validate_chain klass = gst_auto_convert2_validate_chain →
  let index := factory_index (priv autoconvert2) in
  index ≠ [] → 2 ≤ fuel →
  generate_next_chain klass autoconvert2 fuel
    (init_chain_generator index route 0)
  = Some (gst_caps_can_intersect (route_sink_caps route)
            (route_src_caps route),
          set_init (init_chain_generator index route 0) false).
Proof.
  intros Hklass index Hindex Hfuel. unfold generate_next_chain.
  fold index. destruct index as [|e l] eqn:Hfi; [done|]. rewrite <-Hfi.
  destruct fuel as [|[|fuel]]; [lia|lia|].
  cbn [generate_next_chain_loop init_chain_generator gen_init mbind
         option_bind negb set_init gen_sink_caps gen_src_caps gen_length
         iterators].
  rewrite Hklass, validate_chain_first_invalid.
  rewrite validate_non_consecutive_elements_empty.
  unfold validate_chain_caps. simpl.
  by destruct (gst_caps_can_intersect (route_sink_caps route)
                 (route_src_caps route)).
Qed.

Lemma generate_next_chain_length_0_witness :
  let klass := example_class rgb_yuv_i420 in
  let element := example_element rgb_yuv_i420 in
  let route := example_route [RGB] [I420] in
  validate_chain klass = gst_auto_convert2_validate_chain ∧
  factory_index (priv element) ≠ [] ∧ 2 ≤ 2 ∧
  generate_next_chain klass element 2
    (init_chain_generator (factory_index (priv element)) route 0)
  = Some (false,
          set_init
            (init_chain_generator (factory_index (priv element)) route 0)
            false).
Proof.
  intros klass element route.
  assert (validate_chain klass = gst_auto_convert2_validate_chain) as Hklass
    by reflexivity.
  assert (factory_index (priv element) ≠ []) as Hindex by discriminate.
  split; [exact Hklass|]. split; [exact Hindex|]. split; [exact (le_n 2)|].
  exact (generate_next_chain_length_0 (H:=FormatCaps) klass element route 2
           Hklass Hindex (le_n 2)).
Defined.

(** X15. Over a catalog of a single entry no chain of two or more stages
    is ever found: every candidate repeats the entry. *)
Theorem single_entry_catalog_no_long_chain `{GstCapsApi}
    (klass : GstAutoConvert2Class) (autoconvert2 : GstAutoConvert2)
    (route : GstAutoConvert2TransformRoute) (N fuel : nat) :
  validate_chain klass = gst_auto_convert2_validate_chain →
  (Z.of_nat N ≤ G_MAXINT)%Z →
  let index := factory_index (priv autoconvert2) in
  length index = 1 → 2 ≤ N → 2 ≤ fuel →
  ∃ gen',
    generate_next_chain klass autoconvert2 fuel
      (init_chain_generator index route (Z.of_nat N)) = Some (false, gen').
Proof.
  intros Hklass HN index HK H2 Hfuel.
  pose proof (init_chain_generator_wf index route N ltac:(lia)) as Hgen.
  destruct (generate_next_chain_search klass autoconvert2 route N Hklass HN
              _ fuel ltac:(fold index; lia) Hgen)
    as (found & gen' & Hrun & Hfind).
  { cbn [init_chain_generator gen_init iterators]. fold index.
    rewrite HK, Nat.pow_1_l. lia. }
  exists gen'. rewrite Hrun. do 2 f_equal.
  rewrite find_drop_none in Hfind; [done|].
  intros i chain _ Hchain.
  apply all_chains_lookup_inv in Hchain as [Hwf _].
  apply (chain_defect_rejected klass autoconvert2 route N Hklass HN chain 0);
    [done|lia|].
  unfold chain_defect, adjacent_duplicate.
  destruct (chain_wf_lookup _ _ _ 0 Hwf) as (p & -> & Hp); [lia|].
  destruct (chain_wf_lookup _ _ _ 1 Hwf) as (q & -> & Hq); [lia|].
  fold index in Hp, Hq. rewrite HK in Hp, Hq.
  assert (p = q) as -> by lia. rewrite Nat.eqb_refl. apply orb_true_r.
Qed.

Lemma single_entry_catalog_no_long_chain_witness :
  let factories := [example_factory 7 [RGB] [RGB]] in
  let klass := example_class factories in
  let element := example_element factories in
  let route := example_route [RGB] [RGB] in
  validate_chain klass = gst_auto_convert2_validate_chain ∧
  (Z.of_nat 2 ≤ G_MAXINT)%Z ∧
  length (factory_index (priv element)) = 1 ∧ 2 ≤ 2 ∧
  ∃ gen',
    generate_next_chain klass element 2
      (init_chain_generator (factory_index (priv element)) route
         (Z.of_nat 2)) = Some (false, gen').
Proof.
  intros factories klass element route.
  assert (validate_chain klass = gst_auto_convert2_validate_chain) as Hklass
    by reflexivity.
  assert (Z.of_nat 2 ≤ G_MAXINT)%Z as HN by (by vm_compute).
  split; [exact Hklass|]. split; [exact HN|]. split; [reflexivity|].
  split; [exact (le_n 2)|].
  exact (single_entry_catalog_no_long_chain (H:=FormatCaps) klass element
           route 2 2 Hklass HN eq_refl (le_n 2) (le_n 2)).
Defined.

(** * Properties of the caps queries *)

Section QueryFacts.
Context `{GstPadApi}.

Lemma query_caps_peers_intersect (pads : list GstPad)
    (filter : option GstCaps) (caps c : GstCaps) :
  caps_merge_is_union →
  gst_caps_can_intersect c (query_caps_peers pads filter caps)
  = gst_caps_can_intersect c caps
    || existsb (λ pad, gst_caps_can_intersect c
                         (gst_pad_peer_query_caps pad filter)) pads.
Proof.
  intros [_ Hunion]. revert caps.
  induction pads as [|pad pads IH]; intros caps.
  - simpl. by rewrite orb_false_r.
  - cbn [query_caps_peers existsb]. by rewrite IH, Hunion, orb_assoc.
Qed.

(** The answer of [query_caps]: the union of what the peers of [pads]
    answer and of the factory caps, cut down by the filter if there is
    one. *)
Lemma query_caps_intersect (autoconvert2 : GstAutoConvert2)
    (query : GstQuery) (factory_caps : GstCaps) (pads : list GstPad) :
  caps_merge_is_union → caps_normalize_keeps →
  ∃ answer,
    query_caps autoconvert2 query (Some factory_caps) pads
    = Some (true, gst_query_set_caps_result query answer) ∧
    ∀ c, gst_caps_can_intersect c answer = true ↔
         (∃ pad, pad ∈ pads ∧
                 gst_caps_can_intersect c
                   (gst_pad_peer_query_caps pad (caps_filter query)) = true) ∨
         gst_caps_can_intersect c
           match caps_filter query with
           | Some filter =>
               gst_caps_intersect_full filter factory_caps
                 GST_CAPS_INTERSECT_FIRST
           | None => factory_caps
           end = true.
Proof.
  intros Hunion Hnorm. unfold query_caps. cbn [mbind option_bind].
  eexists. split; [done|]. intros c. rewrite Hnorm.
  pose proof (query_caps_peers_intersect pads (caps_filter query)
                gst_caps_new_empty c Hunion) as Hpeers.
  destruct Hunion as [Hempty Hunion]. rewrite Hempty, orb_false_l in Hpeers.
  assert (existsb (λ pad, gst_caps_can_intersect c
                            (gst_pad_peer_query_caps pad (caps_filter query)))
            pads = true ↔
          ∃ pad, pad ∈ pads ∧
                 gst_caps_can_intersect c
                   (gst_pad_peer_query_caps pad (caps_filter query)) = true)
    as Hex.
  { rewrite existsb_exists.
    split; intros (pad & Hpad & Hc); exists pad;
      (split; [by apply list_elem_of_In|done]). }
  destruct (caps_filter query) as [filter|];
    rewrite Hunion, Hpeers, orb_true_iff, Hex; done.
Qed.

End QueryFacts.

(** X16. When merging caps is taking their union and normalising keeps
    their meaning, [query_caps] answers TRUE and sets as result caps that
    intersect [c] exactly when the answer of the peer of one of the pads
    does, or the factory caps do - the factory caps intersected with the
    filter when the query has one. *)
Theorem query_caps_answer `{GstPadApi} (autoconvert2 : GstAutoConvert2)
    (query : GstQuery) (factory_caps : GstCaps) (pads : list GstPad) :
  caps_merge_is_union → caps_normalize_keeps →
  ∃ answer,
    query_caps autoconvert2 query (Some factory_caps) pads
    = Some (true, gst_query_set_caps_result query answer) ∧
    ∀ c, gst_caps_can_intersect c answer = true ↔
         (∃ pad, pad ∈ pads ∧
                 gst_caps_can_intersect c
                   (gst_pad_peer_query_caps pad (caps_filter query)) = true) ∨
         gst_caps_can_intersect c
           match caps_filter query with
           | Some filter =>
               gst_caps_intersect_full filter factory_caps
                 GST_CAPS_INTERSECT_FIRST
           | None => factory_caps
           end = true.
Proof.
  intros Hunion Hnorm.
  exact (query_caps_intersect autoconvert2 query factory_caps pads Hunion
           Hnorm).
Qed.

Lemma format_caps_normalize_keeps :
  @caps_normalize_keeps FormatCaps FormatPads.
Proof. by intros c a. Qed.

Lemma query_caps_answer_witness :
  let element := example_element rgb_yuv_i420 in
  let query := example_caps_query (Some [YUV; I420]) in
  @caps_merge_is_union FormatCaps ∧
  @caps_normalize_keeps FormatCaps FormatPads ∧
  query_caps (H0:=FormatPads) element query (Some [RGB; YUV]) [I420]
  = Some (true, gst_query_set_caps_result query [I420; YUV]) ∧
  ∃ answer,
    query_caps (H0:=FormatPads) element query (Some [RGB; YUV]) [I420]
    = Some (true, gst_query_set_caps_result query answer) ∧
    ∀ c, format_caps_can_intersect c answer = true ↔
         (∃ pad, pad ∈ [I420] ∧
                 format_caps_can_intersect c
                   (format_peer_query_caps pad (Some [YUV; I420])) = true) ∨
         format_caps_can_intersect c
           (format_caps_intersect [YUV; I420] [RGB; YUV]) = true.
Proof.
  intros element query.
  split; [exact format_caps_merge_is_union|].
  split; [exact format_caps_normalize_keeps|]. split; [reflexivity|].
  exact (query_caps_answer (H0:=FormatPads) element query [RGB; YUV] [I420]
           format_caps_merge_is_union format_caps_normalize_keeps).
Defined.

(** X17. After construction with a [get_factories], a caps query without
    filter is answered from the catalog and from the other side of the
    element: on a sink pad the result intersects [c] exactly when the sink
    caps of some entry of the index do or the peer of some source pad
    answers caps that do; on a source pad, the same with the source caps of
    the entries and the peers of the sink pads. *)
Theorem caps_query_after_construction `{GstPadApi}
    (klass : GstAutoConvert2Class)
    (get : GstAutoConvert2 → list GstElementFactory)
    (gst_pad_query_default : GstPad → GstQuery → bool * GstQuery)
    (pads : GstElementPads) (pad : GstPad) (query : GstQuery) :
  caps_merge_is_union → caps_normalize_keeps →
  get_factories klass = Some get →
  query_type query = GST_QUERY_CAPS → caps_filter query = None →
  let element :=
    (gst_auto_convert2_constructed klass gst_auto_convert2_init).2 in
  (∃ answer,
     gst_auto_convert2_sink_query gst_pad_query_default pads pad element
       query = Some (true, gst_query_set_caps_result query answer) ∧
     ∀ c, gst_caps_can_intersect c answer = true ↔
          (∃ p, p ∈ srcpads pads ∧
                gst_caps_can_intersect c (gst_pad_peer_query_caps p None)
                = true) ∨
          (∃ e, e ∈ factory_index (priv element) ∧
                gst_caps_can_intersect c (entry_sink_caps e) = true)) ∧
  (∃ answer,
     gst_auto_convert2_src_query gst_pad_query_default pads pad element
       query = Some (true, gst_query_set_caps_result query answer) ∧
     ∀ c, gst_caps_can_intersect c answer = true ↔
          (∃ p, p ∈ sinkpads pads ∧
                gst_caps_can_intersect c (gst_pad_peer_query_caps p None)
                = true) ∨
          (∃ e, e ∈ factory_index (priv element) ∧
                gst_caps_can_intersect c (entry_src_caps e) = true)).
Proof.
  intros Hunion Hnorm Hget Htype Hfilter element.
  destruct (index_factories_caps_intersect klass get Hunion Hget)
    as (sink_caps & src_caps & Hsink & Hsrc & Hcaps).
  change (index_factories klass gst_auto_convert2_init).2 with element
    in Hsink, Hsrc, Hcaps.
  unfold gst_auto_convert2_sink_query, gst_auto_convert2_src_query.
  rewrite Htype, Hsink, Hsrc. split.
  - destruct (query_caps_intersect element query sink_caps (srcpads pads)
                Hunion Hnorm) as (answer & Hrun & Hanswer).
    exists answer. split; [done|]. intros c.
    rewrite Hanswer, Hfilter. by rewrite (proj1 (Hcaps c)).
  - destruct (query_caps_intersect element query src_caps (sinkpads pads)
                Hunion Hnorm) as (answer & Hrun & Hanswer).
    exists answer. split; [done|]. intros c.
    rewrite Hanswer, Hfilter. by rewrite (proj2 (Hcaps c)).
Qed.

Lemma caps_query_after_construction_witness :
  let klass := example_class rgb_yuv_i420 in
  let element := example_element rgb_yuv_i420 in
  let query := example_caps_query None in
  let pads := example_pads [RGB] [I420] in
  @caps_merge_is_union FormatCaps ∧
  @caps_normalize_keeps FormatCaps FormatPads ∧
  get_factories klass = Some (λ _, rgb_yuv_i420) ∧
  query_type query = GST_QUERY_CAPS ∧ caps_filter query = None ∧
  gst_auto_convert2_sink_query (H0:=FormatPads) (λ _ q, (false, q)) pads RGB
    element query
  = Some (true, gst_query_set_caps_result query [I420; YUV; RGB]) ∧
  ∃ answer,
    gst_auto_convert2_src_query (H0:=FormatPads) (λ _ q, (false, q)) pads
      RGB element query
    = Some (true, gst_query_set_caps_result query answer) ∧
    ∀ c, format_caps_can_intersect c answer = true ↔
         (∃ p, p ∈ [RGB] ∧
               format_caps_can_intersect c (format_peer_query_caps p None)
               = true) ∨
         (∃ e, e ∈ factory_index (priv element) ∧
               format_caps_can_intersect c (entry_src_caps e) = true).
Proof.
  intros klass element query pads.
  assert (get_factories klass = Some (λ _, rgb_yuv_i420)) as Hget
    by reflexivity.
  split; [exact format_caps_merge_is_union|].
  split; [exact format_caps_normalize_keeps|].
  split; [exact Hget|]. split; [reflexivity|]. split; [reflexivity|].
  split; [reflexivity|].
  exact (proj2 (caps_query_after_construction (H0:=FormatPads) klass
                  (λ _, rgb_yuv_i420) (λ _ q, (false, q)) pads RGB query
                  format_caps_merge_is_union format_caps_normalize_keeps
                  Hget eq_refl eq_refl)).
Defined.
